(** * Alpha Miner (Task2.py / Task3.py): shallow embedding and properties

    The Python class [AlphaAlgorithm], which Task2.py and Task3.py both
    carry with the same body, is embedded with stdpp finite sets and maps.
    Python [set]/[frozenset] values are [gset]s, the nested [dict] holding
    the footprint matrix is a [gmap] of [gmap]s, the relation marks are the
    strings the code stores, and exceptions are carried by a small error
    monad.  Python leaves the iteration order of a set unspecified, so every
    loop over a set takes that order from a [SetOrder] parameter; results that
    hold for every [SetOrder] hold whatever order the interpreter picks. *)

From Stdlib Require Import Ascii String.
From stdpp Require Import gmap strings list fin_maps fin_sets pretty.

Open Scope string_scope.

Set Warnings "-clear-no-such-hyp".

(** ** Exceptions *)

Inductive exn := IndexError | KeyError.

Definition M (A : Type) : Type := exn + A.

Definition ret {A} (x : A) : M A := inr x.
Definition raise {A} (e : exn) : M A := inl e.
Definition bind {A B} (m : M A) (k : A → M B) : M B :=
  match m with
  | inl e => inl e
  | inr x => k x
  end.

Notation "x ←? m ; k" := (bind m (λ x, k))
  (at level 20, m at level 100, k at level 200, only parsing).

(** A [for] loop whose body may raise. *)
Fixpoint for_each {A S} (body : S → A → M S) (s : S) (l : list A) : M S :=
  match l with
  | [] => ret s
  | x :: l' => s' ←? body s x; for_each body s' l'
  end.

(** A list comprehension whose element expression may raise. *)
Fixpoint collect {A B} (f : A → M B) (l : list A) : M (list B) :=
  match l with
  | [] => ret []
  | x :: l' => y ←? f x; ys ←? collect f l'; ret (y :: ys)
  end.

(** ** Data *)

Abbreviation pair_t := (gset string * gset string)%type.

Record PetriNet := mkPetriNet {
  places : gset string;
  transitions : gset string;
  arcs : gset (string * string)
}.

(** The order in which Python iterates over a set. *)
Record SetOrder := mkSetOrder {
  iter_act : gset string → list string;
  iter_act_perm : ∀ s, iter_act s ≡ₚ elements s;
  iter_pair : gset pair_t → list pair_t;
  iter_pair_perm : ∀ s, iter_pair s ≡ₚ elements s
}.

Record AlphaAlgorithm := mkAlpha {
  event_log : list (list string);
  unique_traces : gmap (list string) nat;
  footprint_matrix : gmap string (gmap string string)
}.

(** The four relation marks stored in the matrix. *)
Definition PARALLEL : string := "||".
Definition CAUSALITY : string := "->".
Definition INVERSE_CAUSALITY : string := "<-".
Definition CHOICE : string := "#".

(** ** [_get_unique_traces] *)

Definition _get_unique_traces (log : list (list string)) : gmap (list string) nat :=
  foldl (λ c tr, <[tr := S (default 0 (c !! tr))]> c) ∅ log.

(** ** [_build_footprint_matrix] *)

(** [direct_succession[a].add(b)] on a [defaultdict(set)]. *)
Definition ds_add (a b : string) (ds : gmap string (gset string))
  : gmap string (gset string) :=
  <[a := default ∅ (ds !! a) ∪ {[b]}]> ds.

(** The inner loop [for i in range(len(trace) - 1)]. *)
Definition record_trace (ds : gmap string (gset string)) (tr : list string)
  : gmap string (gset string) :=
  foldl (λ ds i,
           match tr !! i, tr !! (i + 1) with
           | Some a, Some b => ds_add a b ds
           | _, _ => ds
           end) ds (seq 0 (length tr - 1)).

(** The first loop: both accumulators after all traces. *)
Definition scan_log (log : list (list string))
  : gmap string (gset string) * gset string :=
  foldl (λ st tr, (record_trace st.1 tr, st.2 ∪ list_to_set tr)) (∅, ∅) log.

(** [a1 in direct_succession and a2 in direct_succession[a1]] *)
Definition follows (ds : gmap string (gset string)) (a1 a2 : string) : bool :=
  match ds !! a1 with
  | Some s => bool_decide (a2 ∈ s)
  | None => false
  end.

(** The [if]/[elif]/[else] cascade deciding one cell. *)
Definition relation_of (ds : gmap string (gset string)) (a1 a2 : string) : string :=
  if follows ds a1 a2 then
    if follows ds a2 a1 then PARALLEL else CAUSALITY
  else if follows ds a2 a1 then INVERSE_CAUSALITY
  else CHOICE.

(** One pass of the outer loop body: the row is reset to [{}] and filled. *)
Definition fill_row (ds : gmap string (gset string)) (acts : list string)
    (fm : gmap string (gmap string string)) (a1 : string)
  : gmap string (gmap string string) :=
  foldl (λ fm a2,
           <[a1 := <[a2 := relation_of ds a1 a2]> (default ∅ (fm !! a1))]> fm)
        (<[a1 := ∅]> fm) acts.

Definition _build_footprint_matrix (o : SetOrder) (log : list (list string))
    (fm0 : gmap string (gmap string string))
  : gmap string (gmap string string) :=
  let '(ds, activities) := scan_log log in
  foldl (fill_row ds (iter_act o activities)) fm0 (iter_act o activities).

(** ** [__init__] *)

Definition init (o : SetOrder) (log : list (list string)) : AlphaAlgorithm :=
  {| event_log := log;
     unique_traces := _get_unique_traces log;
     footprint_matrix := _build_footprint_matrix o log ∅ |}.

(** ** [_check_conditions] *)

(** [self.footprint_matrix[a1][a2]] *)
Definition fm_get (fm : gmap string (gmap string string)) (a1 a2 : string)
  : M string :=
  match fm !! a1 with
  | None => raise KeyError
  | Some row =>
      match row !! a2 with
      | None => raise KeyError
      | Some r => ret r
      end
  end.

(** One of the three loops of [_check_conditions]: [ret false] stands for the
    early [return False], [ret true] for falling out of the loop. *)
Fixpoint all_cells (fm : gmap string (gmap string string)) (mark : string)
    (cells : list (string * string)) : M bool :=
  match cells with
  | [] => ret true
  | (x, y) :: cells' =>
      r ←? fm_get fm x y;
      if decide (r ≠ mark) then ret false else all_cells fm mark cells'
  end.

Definition _check_conditions (o : SetOrder) (self : AlphaAlgorithm)
    (A B : gset string) : M bool :=
  let fm := footprint_matrix self in
  let la := iter_act o A in
  let lb := iter_act o B in
  c1 ←? all_cells fm CHOICE (list_prod la la);
  if negb c1 then ret false else
  c2 ←? all_cells fm CHOICE (list_prod lb lb);
  if negb c2 then ret false else
  c3 ←? all_cells fm CAUSALITY (list_prod la lb);
  if negb c3 then ret false else
  ret true.

(** ** [_find_maximal_pairs] *)

(** The inner loop over [pair2]; [true] is [is_maximal] after the loop. *)
Fixpoint is_maximal (pair1 : pair_t) (xs : list pair_t) : bool :=
  match xs with
  | [] => true
  | pair2 :: xs' =>
      if decide (pair1 = pair2) then is_maximal pair1 xs'
      else if bool_decide (pair1.1 ⊆ pair2.1) && bool_decide (pair1.2 ⊆ pair2.2)
           then false
           else is_maximal pair1 xs'
  end.

Definition _find_maximal_pairs (o : SetOrder) (X : gset pair_t) : gset pair_t :=
  foldl (λ Y pair1, if is_maximal pair1 (iter_pair o X) then Y ∪ {[pair1]} else Y)
        ∅ (iter_pair o X).

(** ** [discover] *)

(** [itertools.combinations(pool, k)] *)
Fixpoint combinations {A} (pool : list A) (k : nat) : list (list A) :=
  match k, pool with
  | 0, _ => [[]]
  | S _, [] => []
  | S k', x :: pool' =>
      (cons x <$> combinations pool' k') ++ combinations pool' k
  end.

(** [range(1, len(T) + 1)] *)
Definition sizes (T : gset string) : list nat := seq 1 (size T).

(** Step 4: the four nested loops filling [X]. *)
Definition candidate_pairs (o : SetOrder) (self : AlphaAlgorithm)
    (T : gset string) : M (gset pair_t) :=
  let pool := iter_act o T in
  for_each (λ X size_a,
    for_each (λ X size_b,
      for_each (λ X A,
        for_each (λ X B,
          ok ←? _check_conditions o self (list_to_set A) (list_to_set B);
          if ok : bool then ret (X ∪ {[(list_to_set A, list_to_set B)]})
          else ret X)
        X (combinations pool size_b))
      X (combinations pool size_a))
    X (sizes T))
  ∅ (sizes T).

(** [trace[0]] and [trace[-1]] *)
Definition first_of (tr : list string) : M string :=
  match head tr with
  | Some a => ret a
  | None => raise IndexError
  end.

Definition last_of (tr : list string) : M string :=
  match last tr with
  | Some a => ret a
  | None => raise IndexError
  end.

(** [f"p_{i}"] *)
Definition place_name (i : nat) : string := "p_" +:+ pretty i.

(** Body of [for i, (A, B) in enumerate(YL)]. *)
Definition add_place_arcs (o : SetOrder) (arcs : gset (string * string))
    (entry : nat * pair_t) : gset (string * string) :=
  let '(i, (A, B)) := entry in
  let place := place_name i in
  let arcs := foldl (λ arcs a, arcs ∪ {[(a, place)]}) arcs (iter_act o A) in
  foldl (λ arcs b, arcs ∪ {[(place, b)]}) arcs (iter_act o B).

Definition enumerate {A} (l : list A) : list (nat * A) := imap pair l.

Definition discover (o : SetOrder) (self : AlphaAlgorithm) : M PetriNet :=
  let T : gset string := list_to_set (concat (event_log self)) in
  tis ←? collect first_of (event_log self);
  let TI : gset string := list_to_set tis in
  tos ←? collect last_of (event_log self);
  let TO : gset string := list_to_set tos in
  X ←? candidate_pairs o self T;
  let YL := _find_maximal_pairs o X in
  let places : gset string :=
    list_to_set (place_name <$> seq 0 (size YL)) in
  let places := places ∪ {["start"]} in
  let places := places ∪ {["end"]} in
  let arcs : gset (string * string) := ∅ in
  let arcs := foldl (λ arcs t, arcs ∪ {[("start", t)]}) arcs (iter_act o TI) in
  let arcs := foldl (λ arcs t, arcs ∪ {[(t, "end")]}) arcs (iter_act o TO) in
  let arcs := foldl (add_place_arcs o) arcs (enumerate (iter_pair o YL)) in
  ret (mkPetriNet places T arcs).

(** The whole pipeline as [main] runs it: construct, then discover. *)
Definition run (o : SetOrder) (log : list (list string)) : M PetriNet :=
  discover o (init o log).

(** ** Python [str] methods, on the characters of ASCII text

    A Python [str] is a Rocq [string], read as its list of characters.  The
    methods below are the ASCII behaviour of the Python ones; results that
    lean on [upper] or [strip] are stated for ASCII text. *)

(** [c.isspace()] for an ASCII character: tab to carriage return, the four
    separators [0x1c]-[0x1f], and the space. *)
Definition py_isspace (c : ascii) : bool :=
  let n := nat_of_ascii c in
  (((9 <=? n) && (n <=? 13)) || ((28 <=? n) && (n <=? 32)))%nat.

(** The character class [[A-Z]]. *)
Definition is_upper (c : ascii) : bool :=
  let n := nat_of_ascii c in ((65 <=? n) && (n <=? 90))%nat.

Definition is_lower (c : ascii) : bool :=
  let n := nat_of_ascii c in ((97 <=? n) && (n <=? 122))%nat.

Definition is_ascii (c : ascii) : bool := (nat_of_ascii c <? 128)%nat.

(** [s.upper()] *)
Definition upper_char (c : ascii) : ascii :=
  if is_lower c then ascii_of_nat (nat_of_ascii c - 32) else c.

Definition py_upper (s : list ascii) : list ascii := upper_char <$> s.

(** [s.strip()]: whitespace removed at both ends. *)
Fixpoint py_lstrip (s : list ascii) : list ascii :=
  match s with
  | [] => []
  | c :: s' => if py_isspace c then py_lstrip s' else s
  end.

Fixpoint py_rstrip (s : list ascii) : list ascii :=
  match s with
  | [] => []
  | c :: s' =>
      match py_rstrip s' with
      | [] => if py_isspace c then [] else [c]
      | r => c :: r
      end
  end.

Definition py_strip (s : list ascii) : list ascii := py_rstrip (py_lstrip s).

(** [s.split(sep)] for a one-character separator. *)
Fixpoint py_split (sep : ascii) (s : list ascii) : list (list ascii) :=
  match s with
  | [] => [[]]
  | c :: s' =>
      if decide (c = sep) then [] :: py_split sep s'
      else match py_split sep s' with
           | [] => [[c]]
           | w :: ws => (c :: w) :: ws
           end
  end.

(** [sep.join(words)] *)
Fixpoint py_join (sep : ascii) (words : list (list ascii)) : list ascii :=
  match words with
  | [] => []
  | [w] => w
  | w :: ws => w ++ sep :: py_join sep ws
  end.

(** [file.readlines()] on the text of the file: every line keeps its
    newline, the last line may lack one. *)
Fixpoint py_readlines (s : list ascii) : list (list ascii) :=
  match s with
  | [] => []
  | c :: s' =>
      if decide (c = "010"%char) then [c] :: py_readlines s'
      else match py_readlines s' with
           | [] => [[c]]
           | l :: ls => (c :: l) :: ls
           end
  end.

(** ** [read_event_log] *)

(** [file] is the text of the file as Python's text layer delivers it to
    [readlines], that is, with line ends already translated to a newline. *)
Definition read_event_log (file : string) : list (list string) :=
  (λ line,
     string_of_list_ascii <$> py_split ","%char (py_strip line))
    <$> py_readlines (list_ascii_of_string file).

(** The pipeline of [main]: read the file, construct, discover. *)
Definition main_discover (o : SetOrder) (file : string) : M PetriNet :=
  let event_log := read_event_log file in
  let alpha := init o event_log in
  discover o alpha.

(** ** Task1.py: [save_to_file] and the joining of a trace *)

(** [",".join(trace)] at the end of [generate_trace]'s loop body. *)
Definition join_trace (trace : list string) : string :=
  string_of_list_ascii (py_join ","%char (list_ascii_of_string <$> trace)).

(** The text of the file once [save_to_file] has written every trace. *)
Definition save_to_file (traces : list string) : string :=
  foldl (λ file trace, file +:+ trace +:+ String "010"%char "") "" traces.

(** ** [generate_abbreviation] *)

(** The greedy [[^A-Z]*]: the longest prefix without a capital. *)
Fixpoint non_upper_prefix (s : list ascii) : list ascii :=
  match s with
  | [] => []
  | c :: s' => if is_upper c then [] else c :: non_upper_prefix s'
  end.

(** [re.findall(r'[A-Z][^A-Z]*', s)]: scan from the left, and after a match
    resume behind it.  Each step consumes a character, so a fuel of
    [length s] steps scans all of [s]. *)
Fixpoint findall_scan (fuel : nat) (s : list ascii) : list (list ascii) :=
  match fuel with
  | 0 => []
  | S fuel' =>
      match s with
      | [] => []
      | c :: s' =>
          if is_upper c then
            let rest := non_upper_prefix s' in
            (c :: rest) :: findall_scan fuel' (drop (length rest) s')
          else findall_scan fuel' s'
      end
  end.

Definition findall_words (s : list ascii) : list (list ascii) :=
  findall_scan (length s) s.

(** [word[0]] *)
Definition word_head (w : list ascii) : M ascii :=
  match w with
  | c :: _ => ret c
  | [] => raise IndexError
  end.

Definition generate_abbreviation (activity : string) : M string :=
  let chars := list_ascii_of_string activity in
  let words := findall_words chars in
  match words with
  | _ :: _ =>
      heads ←? collect word_head words;
      ret (string_of_list_ascii (py_upper heads))
  | [] => ret (string_of_list_ascii (py_upper (take 2 chars)))
  end.

(** The capital letters of a text, in their order. *)
Definition capitals (s : list ascii) : list ascii :=
  filter (λ c, is_upper c) s.

(** An activity name that survives writing and reading a log file: no comma,
    no newline, no whitespace at either end; and ASCII text without a
    carriage return, so that Python's text layer hands the written characters
    back as they are. *)
Definition plain_activity (a : string) : Prop :=
  let cs := list_ascii_of_string a in
  (","%char ∉ cs) ∧ ("010"%char ∉ cs) ∧
  py_isspace <$> head cs ≠ Some true ∧
  py_isspace <$> last cs ≠ Some true ∧
  ("013"%char ∉ cs) ∧ Forall (λ c, is_ascii c) cs.

#[global] Instance plain_activity_dec a : Decision (plain_activity a).
Proof. unfold plain_activity. apply _. Defined.

(** ** Two concrete iteration orders *)

Definition forward_order : SetOrder :=
  {| iter_act := elements;
     iter_act_perm := λ s, reflexivity (elements s);
     iter_pair := elements;
     iter_pair_perm := λ s, reflexivity (elements s) |}.

Definition backward_order : SetOrder :=
  {| iter_act := λ s, reverse (elements s);
     iter_act_perm := λ s, reverse_Permutation (elements s);
     iter_pair := λ s, reverse (elements s);
     iter_pair_perm := λ s, reverse_Permutation (elements s) |}.

(** ** Specification-side notions *)

(** The alphabet of a log: every activity occurring in some trace. *)
Definition alphabet (log : list (list string)) : gset string :=
  list_to_set (concat log).

(** [b] is observed immediately after [a] in some trace of the log. *)
Definition directly_follows (log : list (list string)) (a b : string) : Prop :=
  ∃ tr i, tr ∈ log ∧ tr !! i = Some a ∧ tr !! (S i) = Some b.

(** Reading a cell back from the stored matrix. *)
Definition relation (fm : gmap string (gmap string string)) (a b : string)
  : option string :=
  row ← fm !! a; row !! b.

(** The three structural conditions, read from a matrix. *)
Definition structural (fm : gmap string (gmap string string))
    (A B : gset string) : Prop :=
  (∀ a1 a2, a1 ∈ A → a2 ∈ A → relation fm a1 a2 = Some CHOICE) ∧
  (∀ b1 b2, b1 ∈ B → b2 ∈ B → relation fm b1 b2 = Some CHOICE) ∧
  (∀ a b, a ∈ A → b ∈ B → relation fm a b = Some CAUSALITY).

(** Componentwise domination of [p] by [q]. *)
Definition dominated_by (p q : pair_t) : Prop := p.1 ⊆ q.1 ∧ p.2 ⊆ q.2.

(** A log the pipeline accepts: no trace is empty. *)
Definition valid_log (log : list (list string)) : Prop :=
  Forall (λ tr, tr ≠ []) log.

#[global] Instance valid_log_dec log : Decision (valid_log log).
Proof. unfold valid_log. apply _. Defined.

(** Membership in the directly-follows map, absent keys read as empty. *)
Definition ds_mem (ds : gmap string (gset string)) (a b : string) : Prop :=
  b ∈ default ∅ (ds !! a).

(** The directly-follows map after the first loop. *)
Definition ds_of (log : list (list string)) : gmap string (gset string) :=
  (scan_log log).1.

(** One finished row of the matrix. *)
Definition row_of (ds : gmap string (gset string)) (a1 : string)
    (acts : list string) : gmap string string :=
  foldl (λ row a2, <[a2 := relation_of ds a1 a2]> row) ∅ acts.

(** The four marks a cell may hold. *)
Definition marks : list string :=
  [CAUSALITY; INVERSE_CAUSALITY; PARALLEL; CHOICE].

(** Arcs at the two boundary places. *)
Definition boundary_arc (log : list (list string)) (s t : string) : Prop :=
  (s = "start" ∧ ∃ tr, tr ∈ log ∧ head tr = Some t) ∨
  (t = "end" ∧ ∃ tr, tr ∈ log ∧ last tr = Some s).

(** Arcs at the place numbered by the position of its pair in [ys]. *)
Definition internal_arc (ys : list pair_t) (s t : string) : Prop :=
  ∃ i A B, ys !! i = Some (A, B) ∧
           ((s ∈ A ∧ t = place_name i) ∨ (s = place_name i ∧ t ∈ B)).

(** No arc joins two places or two transitions. *)
Definition bipartite (net : PetriNet) : Prop :=
  ∀ s t, (s, t) ∈ arcs net →
         ¬ (s ∈ places net ∧ t ∈ places net) ∧
         ¬ (s ∈ transitions net ∧ t ∈ transitions net).

(** The sum of the frequencies held by the trace counter. *)
Definition total_frequency (c : gmap (list string) nat) : nat :=
  map_fold (λ _ n acc, n + acc) 0 c.

(** How often a trace occurs in the log. *)
Definition occurrences (log : list (list string)) (t : list string) : nat :=
  length (filter (λ x, x = t) log).

(** The size of a pair, which grows strictly along domination. *)
Definition weight (p : pair_t) : nat := size p.1 + size p.2.

(** ** Concrete logs *)

(** Scenario 2 of the specification: the classic exclusive choice. *)
Definition xor_log : list (list string) := [["a"; "b"; "d"]; ["a"; "c"; "d"]].

(** A log with a loop of length one. *)
Definition loop_log : list (list string) := [["a"; "b"; "b"; "c"]].

(** ** The error monad and its loops *)

(** A loop that only ever adds to a set: membership in the result. *)
Lemma for_each_grow `{Countable K} {A} (Q : A → K → Prop)
    (body : gset K → A → M (gset K)) l s :
  (∀ s x, x ∈ l →
     ∃ s', body s x = ret s' ∧ ∀ p, p ∈ s' ↔ p ∈ s ∨ Q x p) →
  ∃ s', for_each body s l = ret s' ∧
        ∀ p, p ∈ s' ↔ p ∈ s ∨ ∃ x, x ∈ l ∧ Q x p.
Proof.
  revert s. induction l as [|x l IH]; intros s Hb.
  - exists s. split; [done|]. set_solver.
  - destruct (Hb s x) as (s1 & E1 & H1); [set_solver|].
    destruct (IH s1) as (s2 & E2 & H2).
    { intros. apply Hb. set_solver. }
    exists s2. split.
    + simpl. rewrite E1. exact E2.
    + intros p. rewrite H2, H1. set_solver.
Qed.

Lemma foldl_grow `{Countable K} {A} (Q : A → K → Prop)
    (f : gset K → A → gset K) l s :
  (∀ s x p, x ∈ l → p ∈ f s x ↔ p ∈ s ∨ Q x p) →
  ∀ p, p ∈ foldl f s l ↔ p ∈ s ∨ ∃ x, x ∈ l ∧ Q x p.
Proof.
  revert s. induction l as [|x l IH]; intros s Hf p.
  - set_solver.
  - simpl. rewrite IH by (intros; apply Hf; set_solver).
    rewrite Hf by set_solver. set_solver.
Qed.

Lemma collect_first_of_valid log :
  valid_log log →
  ∃ l, collect first_of log = ret l ∧
       ∀ t, t ∈ l ↔ ∃ tr, tr ∈ log ∧ head tr = Some t.
Proof.
  induction 1 as [|tr log Htr _ (l & E & Hl)].
  - exists []. split; [done|]. set_solver.
  - destruct tr as [|a tr]; [done|].
    exists (a :: l). split.
    + simpl. rewrite E. done.
    + intros t. rewrite elem_of_cons, Hl. split.
      * intros [->|(tr' & ? & ?)]; [exists (a :: tr)|exists tr']; set_solver.
      * intros (tr' & [->|?]%elem_of_cons & Hh); [left; by simplify_eq/=|].
        right. by exists tr'.
Qed.

Lemma collect_last_of_valid log :
  valid_log log →
  ∃ l, collect last_of log = ret l ∧
       ∀ t, t ∈ l ↔ ∃ tr, tr ∈ log ∧ last tr = Some t.
Proof.
  induction 1 as [|tr log Htr _ (l & E & Hl)].
  - exists []. split; [done|]. set_solver.
  - destruct (last tr) as [a|] eqn:La.
    2:{ apply last_None in La. done. }
    exists (a :: l). split.
    + simpl. unfold last_of at 1. rewrite La. simpl. rewrite E. done.
    + intros t. rewrite elem_of_cons, Hl. split.
      * intros [->|(tr' & ? & ?)]; [exists tr|exists tr']; set_solver.
      * intros (tr' & [->|?]%elem_of_cons & Hh); [left; congruence|].
        right. by exists tr'.
Qed.

Lemma collect_first_of_invalid log :
  ¬ valid_log log → collect first_of log = raise IndexError.
Proof.
  induction log as [|tr log IH]; intros Hn.
  - destruct Hn. constructor.
  - destruct tr as [|a tr]; [done|].
    simpl. rewrite IH; [done|].
    intros Hv. apply Hn. by constructor.
Qed.

(** ** The directly-follows map *)

Lemma follows_ds_mem ds a b : follows ds a b = true ↔ ds_mem ds a b.
Proof.
  unfold follows, ds_mem. destruct (ds !! a) as [s|]; simpl.
  - apply bool_decide_eq_true.
  - set_solver.
Qed.

Lemma ds_mem_add ds a b x y :
  ds_mem (ds_add a b ds) x y ↔ ds_mem ds x y ∨ (x = a ∧ y = b).
Proof.
  unfold ds_mem, ds_add. destruct (decide (a = x)) as [->|Hne].
  - rewrite lookup_insert_eq. simpl. set_solver.
  - rewrite lookup_insert_ne by done. naive_solver.
Qed.

Lemma ds_mem_steps (tr : list string) idx ds x y :
  ds_mem (foldl (λ ds i,
                   match tr !! i, tr !! (i + 1) with
                   | Some a, Some b => ds_add a b ds
                   | _, _ => ds
                   end) ds idx) x y
  ↔ ds_mem ds x y ∨
    ∃ i, i ∈ idx ∧ tr !! i = Some x ∧ tr !! (S i) = Some y.
Proof.
  revert ds. induction idx as [|i idx IH]; intros ds; simpl.
  - set_solver.
  - rewrite IH. replace (i + 1) with (S i) by lia.
    destruct (tr !! i) as [a|] eqn:Ea, (tr !! S i) as [b|] eqn:Eb;
      rewrite ?ds_mem_add; split;
      try (intros [[?|[-> ->]]|(j & ? & ? & ?)]; [by left|right; exists i; set_solver|right; exists j; set_solver]);
      try (intros [?|(j & ? & ? & ?)]; [by left|right; exists j; set_solver]);
      intros [?|(j & [->|?]%elem_of_cons & ? & ?)]; simplify_eq;
      eauto 10.
Qed.

Lemma ds_mem_record_trace (tr : list string) ds x y :
  ds_mem (record_trace ds tr) x y
  ↔ ds_mem ds x y ∨ ∃ i, tr !! i = Some x ∧ tr !! (S i) = Some y.
Proof.
  unfold record_trace. rewrite ds_mem_steps. split.
  - intros [?|(i & _ & ? & ?)]; eauto.
  - intros [?|(i & Hi & HSi)]; [by left|].
    right. exists i. split_and!; [|done..].
    apply elem_of_seq. apply lookup_lt_Some in HSi. lia.
Qed.

Lemma scan_log_spec (log : list (list string)) ds0 acts0 :
  let st := foldl (λ st tr, (record_trace st.1 tr, st.2 ∪ list_to_set tr))
                  (ds0, acts0) log in
  (∀ x y, ds_mem st.1 x y ↔ ds_mem ds0 x y ∨ directly_follows log x y) ∧
  st.2 = acts0 ∪ alphabet log.
Proof.
  revert ds0 acts0. induction log as [|tr log IH]; intros ds0 acts0; simpl.
  - split; [|unfold alphabet; set_solver].
    intros x y. unfold directly_follows. set_solver.
  - destruct (IH (record_trace ds0 tr) (acts0 ∪ list_to_set tr)) as [H1 H2].
    split.
    + intros x y. rewrite H1, ds_mem_record_trace. unfold directly_follows.
      split.
      * intros [[?|(i & ? & ?)]|(tr' & i & ? & ? & ?)]; [by left|right..].
        -- exists tr, i. set_solver.
        -- exists tr', i. set_solver.
      * intros [?|(tr' & i & [->|?]%elem_of_cons & ? & ?)]; [by left; left|..].
        -- left; right. eauto.
        -- right. exists tr', i. done.
    + rewrite H2. unfold alphabet. simpl. rewrite list_to_set_app_L. set_solver.
Qed.

Lemma scan_log_activities log : (scan_log log).2 = alphabet log.
Proof.
  unfold scan_log. destruct (scan_log_spec log ∅ ∅) as [_ ->]. set_solver.
Qed.

Lemma follows_directly log a b :
  follows (ds_of log) a b = true ↔ directly_follows log a b.
Proof.
  rewrite follows_ds_mem. unfold ds_of, scan_log.
  destruct (scan_log_spec log ∅ ∅) as [-> _]. unfold ds_mem.
  rewrite lookup_empty. set_solver.
Qed.

(** ** The stored matrix *)

Lemma row_fold_lookup ds a1 acts (row : gmap string string) a2 :
  foldl (λ row a2, <[a2 := relation_of ds a1 a2]> row) row acts !! a2
  = if decide (a2 ∈ acts) then Some (relation_of ds a1 a2) else row !! a2.
Proof.
  revert row. induction acts as [|x acts IH]; intros row; cbn [foldl].
  - case_decide; [set_solver|done].
  - rewrite IH. destruct (decide (x = a2)) as [->|].
    + rewrite lookup_insert_eq. repeat case_decide; set_solver.
    + rewrite lookup_insert_ne by done. repeat case_decide; set_solver.
Qed.

Lemma fill_row_fold ds a1 acts (fm : gmap string (gmap string string)) row :
  foldl (λ fm a2,
           <[a1 := <[a2 := relation_of ds a1 a2]> (default ∅ (fm !! a1))]> fm)
        (<[a1 := row]> fm) acts
  = <[a1 := foldl (λ row a2, <[a2 := relation_of ds a1 a2]> row) row acts]> fm.
Proof.
  revert row. induction acts as [|x acts IH]; intros row; simpl; [done|].
  rewrite lookup_insert_eq. simpl. rewrite insert_insert_eq. apply IH.
Qed.

Lemma fill_row_eq ds acts fm a1 :
  fill_row ds acts fm a1 = <[a1 := row_of ds a1 acts]> fm.
Proof. apply fill_row_fold. Qed.

Lemma build_fold_lookup ds acts outer (fm : gmap string (gmap string string)) x :
  foldl (fill_row ds acts) fm outer !! x
  = if decide (x ∈ outer) then Some (row_of ds x acts) else fm !! x.
Proof.
  revert fm. induction outer as [|a outer IH]; intros fm; cbn [foldl].
  - case_decide; [set_solver|done].
  - rewrite IH, fill_row_eq. destruct (decide (a = x)) as [->|].
    + rewrite lookup_insert_eq. repeat case_decide; set_solver.
    + rewrite lookup_insert_ne by done. repeat case_decide; set_solver.
Qed.

Lemma iter_act_elem (o : SetOrder) (s : gset string) x : x ∈ iter_act o s ↔ x ∈ s.
Proof. rewrite (iter_act_perm o s). apply elem_of_elements. Qed.

Lemma iter_pair_elem (o : SetOrder) (s : gset pair_t) x : x ∈ iter_pair o s ↔ x ∈ s.
Proof. rewrite (iter_pair_perm o s). apply elem_of_elements. Qed.

Lemma iter_act_NoDup (o : SetOrder) (s : gset string) : NoDup (iter_act o s).
Proof. rewrite (iter_act_perm o s). apply NoDup_elements. Qed.

Lemma iter_pair_NoDup (o : SetOrder) (s : gset pair_t) : NoDup (iter_pair o s).
Proof. rewrite (iter_pair_perm o s). apply NoDup_elements. Qed.

(** Every cell of the matrix built by the constructor. *)
Lemma relation_init (o : SetOrder) log a b :
  relation (footprint_matrix (init o log)) a b
  = if decide (a ∈ alphabet log ∧ b ∈ alphabet log)
    then Some (relation_of (ds_of log) a b) else None.
Proof.
  unfold relation, init, _build_footprint_matrix, ds_of. simpl.
  pose proof (scan_log_activities log) as Hacts.
  destruct (scan_log log) as [ds acts]. simpl in *. subst acts.
  rewrite build_fold_lookup.
  destruct (decide (a ∈ iter_act o (alphabet log))) as [Ha|Ha];
    rewrite iter_act_elem in Ha.
  - simpl. unfold row_of. rewrite row_fold_lookup.
    destruct (decide (b ∈ iter_act o (alphabet log))) as [Hb|Hb];
      rewrite iter_act_elem in Hb.
    + by rewrite decide_True.
    + rewrite decide_False by tauto. apply lookup_empty.
  - rewrite lookup_empty. simpl. by rewrite decide_False by tauto.
Qed.

Lemma fm_get_relation fm a b :
  fm_get fm a b = match relation fm a b with
                  | Some r => ret r
                  | None => raise KeyError
                  end.
Proof.
  unfold fm_get, relation. destruct (fm !! a) as [row|]; simpl; [|done].
  by destruct (row !! b).
Qed.

(** ** [_check_conditions] against the stored matrix *)

Lemma all_cells_spec fm mark cells :
  (∀ c, c ∈ cells → is_Some (relation fm c.1 c.2)) →
  ∃ b, all_cells fm mark cells = ret b ∧
       (b = true ↔ ∀ c, c ∈ cells → relation fm c.1 c.2 = Some mark).
Proof.
  induction cells as [|[x y] cells IH]; intros Hdef.
  - exists true. split; [done|]. set_solver.
  - destruct (Hdef (x, y)) as [r Hr]; [set_solver|]. simpl in Hr.
    destruct IH as (b & Eb & Hb); [intros; apply Hdef; set_solver|].
    cbn [all_cells]. rewrite fm_get_relation, Hr. simpl.
    destruct (decide (r ≠ mark)) as [Hne|Heq].
    + exists false. split; [done|]. split; [done|].
      intros Hall. specialize (Hall (x, y)). simpl in Hall.
      destruct Hne. rewrite Hr in Hall. set_solver.
    + apply dec_stable in Heq. subst r.
      exists b. split; [done|]. rewrite Hb. split.
      * intros Hall c [->|?]%elem_of_cons; [done|by apply Hall].
      * intros Hall c ?. apply Hall. set_solver.
Qed.

Lemma elem_of_list_prod {A B} (l : list A) (k : list B) x y :
  (x, y) ∈ list_prod l k ↔ x ∈ l ∧ y ∈ k.
Proof. rewrite !list_elem_of_In. apply in_prod_iff. Qed.

Lemma all_cells_prod (o : SetOrder) fm mark (A B : gset string) :
  (∀ a b, a ∈ A → b ∈ B → is_Some (relation fm a b)) →
  ∃ b, all_cells fm mark (list_prod (iter_act o A) (iter_act o B)) = ret b ∧
       (b = true ↔ ∀ x y, x ∈ A → y ∈ B → relation fm x y = Some mark).
Proof.
  intros Hdef.
  destruct (all_cells_spec fm mark (list_prod (iter_act o A) (iter_act o B)))
    as (b & Eb & Hb).
  { intros [x y] [? ?]%elem_of_list_prod. apply Hdef; by apply (iter_act_elem o). }
  exists b. split; [done|]. rewrite Hb. split.
  - intros Hall x y Hx Hy. apply (Hall (x, y)).
    apply elem_of_list_prod. by rewrite !iter_act_elem.
  - intros Hall [x y] [? ?]%elem_of_list_prod.
    apply Hall; by apply (iter_act_elem o).
Qed.

Lemma check_conditions_spec (o : SetOrder) self (A B : gset string) :
  (∀ a b, a ∈ A ∪ B → b ∈ A ∪ B →
          is_Some (relation (footprint_matrix self) a b)) →
  ∃ ok, _check_conditions o self A B = ret ok ∧
        (ok = true ↔ structural (footprint_matrix self) A B).
Proof.
  intros Hdef. unfold _check_conditions, structural.
  destruct (all_cells_prod o (footprint_matrix self) CHOICE A A)
    as (c1 & -> & H1); [intros; apply Hdef; set_solver|].
  destruct (all_cells_prod o (footprint_matrix self) CHOICE B B)
    as (c2 & -> & H2); [intros; apply Hdef; set_solver|].
  destruct (all_cells_prod o (footprint_matrix self) CAUSALITY A B)
    as (c3 & -> & H3); [intros; apply Hdef; set_solver|].
  destruct H1 as [H1 H1'], H2 as [H2 H2'], H3 as [H3 H3'].
  destruct c1, c2, c3; simpl; eexists; (split; [reflexivity|]);
    (split; [try done; by auto|]); intros (S1 & S2 & S3); auto.
Qed.

(** ** [itertools.combinations] *)

Lemma combinations_spec {A} (pool : list A) k c :
  c ∈ combinations pool k ↔ c `sublist_of` pool ∧ length c = k.
Proof.
  revert k c. induction pool as [|x pool IH]; intros k c.
  - destruct k; simpl.
    + rewrite list_elem_of_singleton, sublist_nil_r.
      split; [by intros ->|by intros [-> _]].
    + rewrite sublist_nil_r. split; [by intros ?%elem_of_nil|].
      by intros [-> ?].
  - destruct k; cbn [combinations].
    + rewrite list_elem_of_singleton. split.
      * intros ->. split; [apply sublist_nil_l|done].
      * intros [_ ?]. by destruct c.
    + rewrite elem_of_app, list_elem_of_fmap, IH, sublist_cons_r. split.
      * intros [(c' & -> & Hc')|[? ?]].
        -- apply IH in Hc' as [? ?]. simpl. split; [right; eauto|lia].
        -- split; [by left|done].
      * intros [[?|(c' & -> & ?)] Hlen]; [by right|].
        left. exists c'. split; [done|]. apply IH. simpl in Hlen.
        split; [done|lia].
Qed.

Lemma combinations_cover (o : SetOrder) (T A : gset string) :
  A ⊆ T → A ≠ ∅ →
  ∃ c, c ∈ combinations (iter_act o T) (size A) ∧
       list_to_set c = A ∧ size A ∈ sizes T.
Proof.
  intros Hsub Hne.
  set (c := filter (λ x, x ∈ A) (iter_act o T)).
  assert (list_to_set c = A) as Hc.
  { apply set_eq. intros x. subst c.
    rewrite elem_of_list_to_set, list_elem_of_filter, iter_act_elem. set_solver. }
  assert (length c = size A) as Hlen.
  { rewrite <- (size_list_to_set (C:=gset string) c); [by rewrite Hc|].
    apply NoDup_filter, iter_act_NoDup. }
  exists c. split_and!; [|done|].
  - apply combinations_spec. split; [apply sublist_filter|done].
  - unfold sizes. apply elem_of_seq.
    pose proof (subseteq_size _ _ Hsub).
    assert (size A ≠ 0); [|lia].
    apply size_non_empty_iff. by intros ?%leibniz_equiv.
Qed.

Lemma combinations_sound (o : SetOrder) (T : gset string) k c :
  k ∈ sizes T → c ∈ combinations (iter_act o T) k →
  (list_to_set c : gset string) ≠ ∅ ∧ (list_to_set c : gset string) ⊆ T.
Proof.
  intros Hk [Hsub Hlen]%combinations_spec. split.
  - unfold sizes in Hk. apply elem_of_seq in Hk.
    destruct c as [|x c]; [simpl in Hlen; lia|]. set_solver.
  - intros x Hx%elem_of_list_to_set.
    apply (iter_act_elem o). by eapply sublist_subseteq.
Qed.

(** ** Step 4 of [discover]: the candidate set *)

Lemma candidate_pairs_spec (o : SetOrder) self (T : gset string) :
  (∀ a b, a ∈ T → b ∈ T → is_Some (relation (footprint_matrix self) a b)) →
  ∃ X, candidate_pairs o self T = ret X ∧
       ∀ A B, (A, B) ∈ X ↔
              A ≠ ∅ ∧ B ≠ ∅ ∧ A ⊆ T ∧ B ⊆ T ∧
              structural (footprint_matrix self) A B.
Proof.
  intros Hdef. unfold candidate_pairs.
  set (pool := iter_act o T).
  set (Q4 := λ (la lb : list string) (p : pair_t),
         p = (list_to_set la, list_to_set lb) ∧
         structural (footprint_matrix self) (list_to_set la) (list_to_set lb)).
  set (Q3 := λ (sb : nat) (la : list string) (p : pair_t),
         sb ∈ sizes T ∧ ∃ lb, lb ∈ combinations pool sb ∧ Q4 la lb p).
  set (Q2 := λ (sa sb : nat) (p : pair_t),
         sa ∈ sizes T ∧ ∃ la, la ∈ combinations pool sa ∧ Q3 sb la p).
  set (Q1 := λ (sa : nat) (p : pair_t), ∃ sb, sb ∈ sizes T ∧ Q2 sa sb p).
  edestruct (for_each_grow Q1) as (X & EX & HX); [|exists X; split; [exact EX|]].
  { intros X sa Hsa.
    edestruct (for_each_grow (Q2 sa)) as (X' & EX' & HX');
      [|exists X'; split; [exact EX'|]].
    { intros X1 sb Hsb.
      edestruct (for_each_grow (Q3 sb)) as (X2 & EX2 & HX2);
        [|exists X2; split; [exact EX2|]].
      { intros X2 la Hla.
        edestruct (for_each_grow (Q4 la)) as (X3 & EX3 & HX3);
          [|exists X3; split; [exact EX3|]].
        { intros X3 lb Hlb.
          destruct (combinations_sound o T sa la Hsa Hla) as [_ HA].
          destruct (combinations_sound o T sb lb Hsb Hlb) as [_ HB].
          destruct (check_conditions_spec o self (list_to_set la) (list_to_set lb))
            as (ok & -> & Hok); [intros; apply Hdef; set_solver|].
          simpl. destruct ok; eexists; (split; [reflexivity|]); intros p.
          - unfold Q4. destruct Hok as [Hok _]. specialize (Hok eq_refl).
            set_solver.
          - unfold Q4. destruct Hok as [_ Hok].
            split; [by left|]. intros [?|[_ Hs]]; [done|].
            by specialize (Hok Hs). }
        intros p. rewrite HX3. unfold Q3. naive_solver. }
      intros p. rewrite HX2. unfold Q2. naive_solver. }
    intros p. rewrite HX'. unfold Q1. naive_solver. }
  intros A B. rewrite HX. split.
  - intros [?|(sa & _ & sb & Hsb & Hsa & la & Hla & _ & lb & Hlb & Heq & Hs)];
      [set_solver|].
    simplify_eq.
    destruct (combinations_sound o T sa la Hsa Hla) as [? ?].
    destruct (combinations_sound o T sb lb Hsb Hlb) as [? ?].
    done.
  - intros (HA & HB & HAT & HBT & Hs). right.
    destruct (combinations_cover o T A HAT HA) as (la & Hla & <- & Hsa).
    destruct (combinations_cover o T B HBT HB) as (lb & Hlb & <- & Hsb).
    unfold Q1, Q2, Q3, Q4.
    eexists. split; [exact Hsa|]. eexists. split; [exact Hsb|].
    split; [exact Hsa|]. eexists. split; [exact Hla|].
    split; [exact Hsb|]. eexists. split; [exact Hlb|]. done.
Qed.

(** ** [_find_maximal_pairs] *)

Lemma is_maximal_spec (p : pair_t) xs :
  is_maximal p xs = true ↔ ∀ q, q ∈ xs → q ≠ p → ¬ dominated_by p q.
Proof.
  induction xs as [|q xs IH]; cbn [is_maximal].
  - split; [|done]. by intros _ q ?%elem_of_nil.
  - destruct (decide (p = q)) as [<-|Hne].
    + rewrite IH. split.
      * intros Hall q [->|?]%elem_of_cons; [done|by apply Hall].
      * intros Hall q ?. apply Hall. set_solver.
    + destruct (bool_decide (p.1 ⊆ q.1) && bool_decide (p.2 ⊆ q.2)) eqn:Hd.
      * apply andb_true_iff in Hd as [H1%bool_decide_eq_true H2%bool_decide_eq_true].
        split; [done|]. intros Hall. destruct (Hall q); [set_solver|done|done].
      * rewrite IH. split.
        -- intros Hall q' [->|?]%elem_of_cons; [|by apply Hall].
           intros _ [H1 H2].
           apply andb_false_iff in Hd as [Hd|Hd];
             apply bool_decide_eq_false in Hd; done.
        -- intros Hall q' ?. apply Hall. set_solver.
Qed.

Lemma find_maximal_pairs_spec (o : SetOrder) (X : gset pair_t) (p : pair_t) :
  p ∈ _find_maximal_pairs o X ↔
  p ∈ X ∧ ∀ q, q ∈ X → q ≠ p → ¬ dominated_by p q.
Proof.
  unfold _find_maximal_pairs.
  rewrite (foldl_grow
             (λ x (p : pair_t), p = x ∧ is_maximal x (iter_pair o X) = true)).
  - split.
    + intros [?|(x & Hx & -> & Hm)]; [set_solver|].
      apply iter_pair_elem in Hx. split; [done|].
      intros q Hq. apply (is_maximal_spec x (iter_pair o X)); [done|].
      by apply iter_pair_elem.
    + intros [Hp Hall]. right. exists p. split_and!; [by apply iter_pair_elem|done|].
      apply is_maximal_spec. intros q Hq. apply Hall. by apply (iter_pair_elem o).
  - intros Y x q _. destruct (is_maximal x (iter_pair o X)); set_solver.
Qed.

(** ** Net assembly *)

Lemma add_place_arcs_spec (o : SetOrder) arcs0 i (A B : gset string) s t :
  (s, t) ∈ add_place_arcs o arcs0 (i, (A, B)) ↔
  (s, t) ∈ arcs0 ∨ (s ∈ A ∧ t = place_name i) ∨ (s = place_name i ∧ t ∈ B).
Proof.
  unfold add_place_arcs.
  rewrite (foldl_grow (λ b (p : string * string), p = (place_name i, b)))
    by set_solver.
  rewrite (foldl_grow (λ a (p : string * string), p = (a, place_name i)))
    by set_solver.
  split.
  - intros [[?|(a & Ha & ?)]|(b & Hb & ?)]; simplify_eq; auto.
    + right; left. by apply iter_act_elem in Ha.
    + right; right. by apply iter_act_elem in Hb.
  - intros [?|[[Ha ->]|[-> Hb]]]; [by left; left|left; right|right].
    + exists s. by rewrite iter_act_elem.
    + exists t. by rewrite iter_act_elem.
Qed.

Lemma place_arcs_spec (o : SetOrder) arcs0 (ys : list pair_t) s t :
  (s, t) ∈ foldl (add_place_arcs o) arcs0 (enumerate ys) ↔
  (s, t) ∈ arcs0 ∨ internal_arc ys s t.
Proof.
  rewrite (foldl_grow
    (λ (e : nat * pair_t) (p : string * string),
       (p.1 ∈ e.2.1 ∧ p.2 = place_name e.1) ∨
       (p.1 = place_name e.1 ∧ p.2 ∈ e.2.2))).
  - unfold internal_arc, enumerate. split.
    + intros [?|([i [A B]] & Hin & Hp)]; [by left|right].
      apply elem_of_lookup_imap in Hin as (j & y & ? & ?). simplify_eq.
      exists j, A, B. done.
    + intros [?|(i & A & B & Hi & Hp)]; [by left|right].
      exists (i, (A, B)). split; [|done].
      apply elem_of_lookup_imap. eauto.
  - intros arcs1 [i [A B]] [s' t'] _. apply add_place_arcs_spec.
Qed.

Lemma place_name_inj i j : place_name i = place_name j → i = j.
Proof.
  unfold place_name. intros Heq. simplify_eq/=. by apply (inj pretty).
Qed.

Lemma place_name_not_boundary i :
  place_name i ≠ "start" ∧ place_name i ≠ "end".
Proof. unfold place_name. split; intros Heq; simplify_eq/=. Qed.

Lemma init_matrix_total (o : SetOrder) log a b :
  a ∈ alphabet log → b ∈ alphabet log →
  is_Some (relation (footprint_matrix (init o log)) a b).
Proof. intros. rewrite relation_init. rewrite decide_True by done. eauto. Qed.

(** What [discover] returns on a log without empty traces. *)
Lemma discover_valid (o : SetOrder) log :
  valid_log log →
  ∃ X net,
    candidate_pairs o (init o log) (alphabet log) = ret X ∧
    run o log = ret net ∧
    places net =
      list_to_set
        (place_name <$> seq 0 (size (_find_maximal_pairs o X)))
        ∪ {["start"]} ∪ {["end"]} ∧
    transitions net = alphabet log ∧
    ∀ s t, (s, t) ∈ arcs net ↔
           boundary_arc log s t ∨
           internal_arc (iter_pair o (_find_maximal_pairs o X)) s t.
Proof.
  intros Hv.
  destruct (candidate_pairs_spec o (init o log) (alphabet log))
    as (X & EX & _); [apply init_matrix_total|].
  destruct (collect_first_of_valid log Hv) as (tis & Etis & Htis).
  destruct (collect_last_of_valid log Hv) as (tos & Etos & Htos).
  exists X. eexists. split; [exact EX|].
  unfold run, discover. cbn [event_log init].
  rewrite Etis. cbn [bind ret]. rewrite Etos. cbn [bind ret].
  change (list_to_set (concat log)) with (alphabet log).
  rewrite EX. cbn [bind ret]. split; [reflexivity|].
  cbn [places transitions arcs]. split_and!; [done..|].
  intros s t. rewrite place_arcs_spec.
  rewrite (foldl_grow (λ x (p : string * string), p = (x, "end")))
    by set_solver.
  rewrite (foldl_grow (λ x (p : string * string), p = ("start", x)))
    by set_solver.
  unfold boundary_arc.
  split.
  - intros [[[?|(x & Hx & ?)]|(x & Hx & ?)]|?]; [set_solver| | |by right];
      apply iter_act_elem, elem_of_list_to_set in Hx; simplify_eq; left.
    + left. split; [done|]. by apply Htis.
    + right. split; [done|]. by apply Htos.
  - intros [[[-> Ht]|[-> Hs]]|?]; [| |by right]; left.
    + left; right. exists t. split; [|done].
      apply iter_act_elem, elem_of_list_to_set. by apply Htis.
    + right. exists s. split; [|done].
      apply iter_act_elem, elem_of_list_to_set. by apply Htos.
Qed.

(** [discover] on a log with an empty trace. *)
Lemma discover_invalid (o : SetOrder) log :
  ¬ valid_log log → run o log = raise IndexError.
Proof.
  intros Hn. unfold run, discover. cbn [event_log init].
  by rewrite (collect_first_of_invalid log Hn).
Qed.

(** * Properties *)

(** ** The footprint matrix *)

Lemma relation_of_cases ds a b :
  relation_of ds a b =
    match follows ds a b, follows ds b a with
    | true, true => PARALLEL
    | true, false => CAUSALITY
    | false, true => INVERSE_CAUSALITY
    | false, false => CHOICE
    end.
Proof. unfold relation_of. by destruct (follows ds a b), (follows ds b a). Qed.

(** The classification rule of every stored cell, in terms of the log. *)
Lemma relation_rule (o : SetOrder) log a b :
  a ∈ alphabet log → b ∈ alphabet log →
  ∃ r, relation (footprint_matrix (init o log)) a b = Some r ∧
       (r = PARALLEL ↔ directly_follows log a b ∧ directly_follows log b a) ∧
       (r = CAUSALITY ↔ directly_follows log a b ∧ ¬ directly_follows log b a) ∧
       (r = INVERSE_CAUSALITY ↔
          ¬ directly_follows log a b ∧ directly_follows log b a) ∧
       (r = CHOICE ↔ ¬ directly_follows log a b ∧ ¬ directly_follows log b a).
Proof.
  intros Ha Hb. rewrite relation_init, decide_True by done.
  eexists. split; [reflexivity|]. rewrite relation_of_cases.
  rewrite <- !follows_directly.
  destruct (follows (ds_of log) a b), (follows (ds_of log) b a);
    unfold PARALLEL, CAUSALITY, INVERSE_CAUSALITY, CHOICE; naive_solver.
Qed.

(** C2. For every event log and every ordered pair [(a, b)] of alphabet
    activities, the matrix built by [_build_footprint_matrix] holds exactly
    one of the four relation marks at [(a, b)], and the directions agree:
    [->] at [(a, b)] iff [<-] at [(b, a)], [||] at [(a, b)] iff [||] at
    [(b, a)], and [#] at [(a, b)] iff [#] at [(b, a)]. *)
Theorem footprint_total_and_direction_consistent (o : SetOrder) log a b :
  a ∈ alphabet log → b ∈ alphabet log →
  let fm := footprint_matrix (init o log) in
  (∃ r, relation fm a b = Some r ∧ r ∈ marks ∧
        ∀ r', relation fm a b = Some r' → r' = r) ∧
  NoDup marks ∧
  (relation fm a b = Some CAUSALITY ↔ relation fm b a = Some INVERSE_CAUSALITY) ∧
  (relation fm a b = Some PARALLEL ↔ relation fm b a = Some PARALLEL) ∧
  (relation fm a b = Some CHOICE ↔ relation fm b a = Some CHOICE).
Proof.
  intros Ha Hb fm. subst fm.
  rewrite !relation_init, !decide_True by done.
  rewrite !relation_of_cases. split_and!.
  - eexists. split_and!; [reflexivity| |congruence].
    destruct (follows _ a b), (follows _ b a); unfold marks; set_solver.
  - unfold marks, CAUSALITY, INVERSE_CAUSALITY, PARALLEL, CHOICE.
    repeat (constructor; [set_solver|]). constructor.
  - destruct (follows _ a b), (follows _ b a); done.
  - destruct (follows _ a b), (follows _ b a); done.
  - destruct (follows _ a b), (follows _ b a); done.
Qed.

Lemma footprint_total_and_direction_consistent_witness :
  relation (footprint_matrix (init forward_order xor_log)) "a" "b"
    = Some CAUSALITY ↔
  relation (footprint_matrix (init forward_order xor_log)) "b" "a"
    = Some INVERSE_CAUSALITY.
Proof.
  apply (footprint_total_and_direction_consistent forward_order xor_log "a" "b");
    vm_compute; reflexivity.
Defined.

(** C8. For every alphabet activity [a], the cell [(a, a)] is classified by
    the same rule as any other cell: it is [||] when [a] directly follows
    itself in some trace and [#] otherwise; it is never [->]. *)
Theorem self_pair_parallel_or_choice (o : SetOrder) log a :
  a ∈ alphabet log →
  let fm := footprint_matrix (init o log) in
  (directly_follows log a a → relation fm a a = Some PARALLEL) ∧
  (¬ directly_follows log a a → relation fm a a = Some CHOICE) ∧
  relation fm a a ≠ Some CAUSALITY ∧
  relation fm a a = Some (relation_of (ds_of log) a a).
Proof.
  intros Ha fm. subst fm.
  rewrite relation_init, decide_True by done.
  rewrite relation_of_cases, <- follows_directly.
  destruct (follows (ds_of log) a a); split_and!; done.
Qed.

Lemma self_pair_parallel_or_choice_witness :
  relation (footprint_matrix (init forward_order loop_log)) "b" "b"
    = Some PARALLEL.
Proof.
  assert ("b" ∈ alphabet loop_log) as Hb by (vm_compute; reflexivity).
  pose proof (self_pair_parallel_or_choice forward_order loop_log "b" Hb) as H.
  cbv zeta in H. destruct H as (H & _). apply H.
  exists ["a"; "b"; "b"; "c"], 1. split_and!; [|reflexivity..].
  apply list_elem_of_here.
Defined.

(** ** The candidate set *)

(** C1. For every event log, the candidate-generation step of [discover]
    returns a set [X] such that a pair [(A, B)] is in [X] exactly when [A] and
    [B] are non-empty subsets of the alphabet and, read back from the stored
    footprint matrix, every cell within [A] is [#], every cell within [B] is
    [#], and every cell from [A] to [B] is [->]. *)
Theorem candidate_set_sound_and_complete (o : SetOrder) log :
  ∃ X, candidate_pairs o (init o log) (alphabet log) = ret X ∧
       ∀ A B, (A, B) ∈ X ↔
              A ≠ ∅ ∧ B ≠ ∅ ∧ A ⊆ alphabet log ∧ B ⊆ alphabet log ∧
              structural (footprint_matrix (init o log)) A B.
Proof. apply candidate_pairs_spec, init_matrix_total. Qed.

(** C10. For every pair [(A, B)] in the candidate set [X], the sets [A] and
    [B] share no activity: a common activity [a] would need the single cell
    [(a, a)] to be both [#] and [->]. *)
Theorem candidate_sides_disjoint (o : SetOrder) log X (A B : gset string) :
  candidate_pairs o (init o log) (alphabet log) = ret X →
  (A, B) ∈ X → A ## B.
Proof.
  intros EX Hin.
  destruct (candidate_pairs_spec o (init o log) (alphabet log))
    as (X' & EX' & HX'); [apply init_matrix_total|].
  rewrite EX in EX'. injection EX' as <-.
  apply HX' in Hin as (_ & _ & _ & _ & Hc1 & _ & Hc3).
  intros a Ha Hb.
  specialize (Hc1 a a Ha Ha). specialize (Hc3 a a Ha Hb).
  rewrite Hc1 in Hc3. done.
Qed.

Lemma candidate_sides_disjoint_witness :
  ({["a"]} : gset string) ## {["b"; "c"]}.
Proof.
  assert (match candidate_pairs forward_order (init forward_order xor_log)
                  (alphabet xor_log) with
          | inr X => bool_decide (({["a"]}, {["b"; "c"]}) ∈ X)
          | inl _ => false
          end = true) as Hin by (vm_compute; reflexivity).
  destruct (candidate_pairs forward_order (init forward_order xor_log)
              (alphabet xor_log)) as [e|X] eqn:EX; [discriminate Hin|].
  apply (candidate_sides_disjoint forward_order xor_log X _ _ EX).
  by apply bool_decide_eq_true in Hin.
Defined.

(** ** Maximal pairs *)

(** C3. For every set [X], the set [Y] returned by [_find_maximal_pairs] is a
    subset of [X]; no element of [Y] is dominated componentwise by a distinct
    element of [Y]; and a pair [p] of [X] is kept in [Y] exactly when no
    distinct pair [q] of [X] has [p.1 ⊆ q.1] and [p.2 ⊆ q.2]. *)
Theorem maximal_pairs_are_the_antichain (o : SetOrder) (X : gset pair_t) :
  let Y := _find_maximal_pairs o X in
  Y ⊆ X ∧
  (∀ p q, p ∈ Y → q ∈ Y → p ≠ q → ¬ dominated_by p q) ∧
  (∀ p, p ∈ X → (p ∈ Y ↔ ¬ ∃ q, q ∈ X ∧ q ≠ p ∧ dominated_by p q)).
Proof.
  intros Y. subst Y. split_and!.
  - intros p [? _]%find_maximal_pairs_spec. done.
  - intros p q [_ Hp]%find_maximal_pairs_spec [Hq _]%find_maximal_pairs_spec Hne.
    apply Hp; [done|]. by intros ->.
  - intros p Hp. rewrite find_maximal_pairs_spec. split.
    + intros [_ Hall] (q & Hq & Hne & Hd). by apply (Hall q).
    + intros Hno. split; [done|]. intros q Hq Hne Hd. apply Hno. eauto.
Qed.

(** ** The assembled net *)

Lemma iter_pair_length (o : SetOrder) (Y : gset pair_t) :
  length (iter_pair o Y) = size Y.
Proof. by rewrite (iter_pair_perm o Y). Qed.

Lemma iter_pair_lookup (o : SetOrder) (Y : gset pair_t) (p : pair_t) :
  p ∈ Y ↔ ∃ i, iter_pair o Y !! i = Some p.
Proof. rewrite <- (iter_pair_elem o). apply list_elem_of_lookup. Qed.

Lemma place_names_size n :
  size (list_to_set (C:=gset string) (place_name <$> seq 0 n)
          ∪ {["start"]} ∪ {["end"]}) = 2 + n.
Proof.
  assert (∀ x, x ∈ place_name <$> seq 0 n → x ≠ "start" ∧ x ≠ "end") as Hnb.
  { intros x (i & -> & _)%list_elem_of_fmap. apply place_name_not_boundary. }
  rewrite !size_union, !size_singleton, size_list_to_set.
  - rewrite length_fmap, length_seq. lia.
  - apply NoDup_fmap_2; [exact place_name_inj|apply NoDup_seq].
  - intros x Hx ->%elem_of_singleton.
    apply elem_of_list_to_set in Hx. by destruct (Hnb _ Hx).
  - intros x [Hx| ->%elem_of_singleton]%elem_of_union ?%elem_of_singleton;
      [|done]. subst x.
    apply elem_of_list_to_set in Hx. by destruct (Hnb _ Hx).
Qed.

(** C4. For every log without empty traces, [discover] returns a net whose
    places are [start], [end] and one place [p_i] for each position [i] of the
    enumeration of [Y] (each element of [Y] sits at exactly one position, and
    distinct positions give distinct places, so there are [|Y| + 2] places);
    whose transitions are the alphabet of the log; and whose arcs are exactly
    [start → t] for the first activity [t] of a trace, [t → end] for the last
    activity [t] of a trace, and, for the pair [(A, B)] at place [p],
    [a → p] for [a ∈ A] and [p → b] for [b ∈ B]. *)
Theorem discover_net_shape (o : SetOrder) log :
  valid_log log →
  ∃ X net,
    candidate_pairs o (init o log) (alphabet log) = ret X ∧
    run o log = ret net ∧
    let Y := _find_maximal_pairs o X in
    let ys := iter_pair o Y in
    (∀ x, x ∈ places net ↔
          x = "start" ∨ x = "end" ∨ ∃ i, i < length ys ∧ x = place_name i) ∧
    (∀ p, p ∈ Y ↔ ∃ i, ys !! i = Some p) ∧
    (∀ i j p, ys !! i = Some p → ys !! j = Some p → i = j) ∧
    (∀ i j, place_name i = place_name j → i = j) ∧
    size (places net) = 2 + size Y ∧
    transitions net = alphabet log ∧
    ∀ s t, (s, t) ∈ arcs net ↔ boundary_arc log s t ∨ internal_arc ys s t.
Proof.
  intros Hv.
  destruct (discover_valid o log Hv) as (X & net & EX & Erun & Hp & Ht & Ha).
  exists X, net. split; [done|]. split; [done|]. cbv zeta. split_and!.
  - intros x. rewrite Hp, iter_pair_length.
    rewrite !elem_of_union, !elem_of_singleton, elem_of_list_to_set,
      list_elem_of_fmap.
    split.
    + intros [[(i & -> & Hi%elem_of_seq)|?]|?]; [|by auto..].
      right; right. exists i. split; [lia|done].
    + intros [?|[?|(i & Hi & ->)]]; [by auto..|].
      left; left. exists i. split; [done|]. apply elem_of_seq. lia.
  - apply iter_pair_lookup.
  - intros i j p Hi Hj. eapply NoDup_lookup; [apply (iter_pair_NoDup o)|done..].
  - apply place_name_inj.
  - rewrite Hp. apply place_names_size.
  - done.
  - done.
Qed.

Lemma discover_net_shape_witness :
  ∃ net, run forward_order xor_log = ret net ∧
         transitions net = alphabet xor_log ∧
         size (places net) = 4.
Proof.
  assert (valid_log xor_log) as Hv by (repeat constructor; discriminate).
  destruct (discover_net_shape forward_order xor_log Hv)
    as (X & net & EX & Erun & _ & _ & _ & _ & Hsz & Htr & _).
  exists net. split; [exact Erun|]. split; [exact Htr|].
  rewrite Hsz.
  assert (match candidate_pairs forward_order (init forward_order xor_log)
                  (alphabet xor_log) with
          | inr X => size (_find_maximal_pairs forward_order X)
          | inl _ => 0
          end = 2) as HY by (vm_compute; reflexivity).
  rewrite EX in HY.
  change (size (_find_maximal_pairs forward_order X) = 2) in HY.
  by rewrite HY.
Defined.

Lemma elem_of_alphabet log x :
  x ∈ alphabet log ↔ ∃ tr, tr ∈ log ∧ x ∈ tr.
Proof.
  unfold alphabet. rewrite elem_of_list_to_set.
  induction log as [|tr log IH]; simpl.
  - split; [by intros ?%elem_of_nil|]. by intros (? & ?%elem_of_nil & _).
  - rewrite elem_of_app, IH. split.
    + intros [?|(tr' & ? & ?)]; [exists tr|exists tr']; set_solver.
    + intros (tr' & [->|?]%elem_of_cons & ?); [by left|right; eauto].
Qed.

(** Every end point of an arc is either a transition or a place of the net. *)
Lemma discover_arc_ends (o : SetOrder) log net s t :
  run o log = ret net → (s, t) ∈ arcs net →
  (s ∈ places net ∧ t ∈ transitions net) ∨
  (s ∈ transitions net ∧ t ∈ places net).
Proof.
  intros Erun Harc.
  destruct (valid_log_dec log) as [Hv|Hn].
  2:{ rewrite (discover_invalid o log Hn) in Erun. done. }
  destruct (discover_valid o log Hv) as (X & net' & EX & Erun' & Hp & Ht & Ha).
  rewrite Erun in Erun'. injection Erun' as <-.
  destruct (candidate_pairs_spec o (init o log) (alphabet log))
    as (X' & EX' & HX); [apply init_matrix_total|].
  rewrite EX in EX'. injection EX' as <-.
  apply Ha in Harc. rewrite Hp, Ht.
  destruct Harc as [[[-> (tr & Htr & Hh)]|[-> (tr & Htr & Hl)]]|Hint].
  - left. split; [set_solver|].
    apply elem_of_alphabet. exists tr. split; [done|].
    by apply head_Some_elem_of.
  - right. split; [|set_solver].
    apply elem_of_alphabet. exists tr. split; [done|].
    by apply last_Some_elem_of.
  - destruct Hint as (i & A & B & Hi & Hst).
    assert ((A, B) ∈ _find_maximal_pairs o X) as HY.
    { apply (iter_pair_lookup o). eauto. }
    apply find_maximal_pairs_spec in HY as [HXin _].
    apply HX in HXin as (_ & _ & HA & HB & _).
    assert (place_name i ∈ list_to_set (C:=gset string)
              (place_name <$> seq 0 (size (_find_maximal_pairs o X)))) as Hpl.
    { apply elem_of_list_to_set, list_elem_of_fmap. exists i. split; [done|].
      apply elem_of_seq. apply lookup_lt_Some in Hi.
      rewrite iter_pair_length in Hi. lia. }
    destruct Hst as [[Hs ->]|[-> Hb]]; [right|left]; set_solver.
Qed.

(** C9 (as the code behaves). For every log none of whose activities is
    named like a place of the returned net, the net is bipartite: every arc
    joins a place and a transition, never two places or two transitions. *)
Theorem discover_bipartite_when_names_disjoint (o : SetOrder) log net :
  run o log = ret net →
  transitions net ## places net →
  bipartite net.
Proof.
  intros Erun Hdisj s t Harc.
  destruct (discover_arc_ends o log net s t Erun Harc) as [[? ?]|[? ?]];
    set_solver.
Qed.

Lemma discover_bipartite_when_names_disjoint_witness :
  ∃ net, run forward_order xor_log = ret net ∧ bipartite net.
Proof.
  eexists. split; [vm_compute; reflexivity|].
  eapply (discover_bipartite_when_names_disjoint forward_order xor_log).
  - vm_compute; reflexivity.
  - apply (bool_decide_unpack (_ ## _)). vm_compute. exact I.
Defined.

(** C9, refuted as stated: with an activity called [start] the arc
    [start → start] runs from the place [start] to the place [start]. *)
Lemma reserved_name_breaks_bipartite :
  ∃ net, run forward_order [["start"]] = ret net ∧ ¬ bipartite net.
Proof.
  eexists. split; [vm_compute; reflexivity|].
  intros Hb. destruct (Hb "start" "start") as [Hpp _].
  - vm_compute; reflexivity.
  - apply Hpp. split; vm_compute; reflexivity.
Qed.

(** ** Inputs the specification calls invalid *)

(** C6 (as the code behaves). A log containing a zero-length trace makes
    [discover] raise [IndexError]; the constructor has by then built the
    footprint matrix.  An empty log is accepted and yields the net with the
    places [start] and [end] only, and a blank activity token is an activity
    like any other. *)
Theorem empty_trace_raises_and_rest_is_accepted (o : SetOrder) :
  (∀ l1 l2, run o (l1 ++ [] :: l2) = raise IndexError) ∧
  relation (footprint_matrix (init o [[]; ["a"; "b"]])) "a" "b"
    = Some CAUSALITY ∧
  run o [] = ret (mkPetriNet {["start"; "end"]} ∅ ∅) ∧
  (∃ net, run o [[""]] = ret net ∧ transitions net = {[""]} ∧
          ("start", "") ∈ arcs net ∧ ("", "end") ∈ arcs net).
Proof.
  split_and!.
  - intros l1 l2. apply discover_invalid. intros Hv.
    apply Forall_app in Hv as [_ Hv]. by inv Hv.
  - rewrite relation_init. vm_compute. reflexivity.
  - unfold run, discover. cbn [event_log init collect bind ret concat].
    unfold candidate_pairs, sizes, _find_maximal_pairs.
    assert (∀ s : gset string, s = ∅ → iter_act o s = []) as Hact.
    { intros s ->. apply Permutation_nil_r.
      by rewrite (iter_act_perm o ∅), elements_empty. }
    assert (iter_pair o ∅ = []) as Hpair.
    { apply Permutation_nil_r. by rewrite (iter_pair_perm o ∅), elements_empty. }
    rewrite !(Hact (list_to_set [])) by done.
    change (list_to_set (@nil string)) with (∅ : gset string).
    rewrite size_empty. cbn [seq for_each bind ret foldl].
    rewrite Hpair. cbn [foldl]. rewrite size_empty. cbn [seq fmap list_fmap].
    rewrite Hpair. cbn [enumerate imap foldl].
    do 2 f_equal; set_solver.
  - assert (valid_log [[""]]) as Hv by (repeat constructor; discriminate).
    destruct (discover_valid o [[""]] Hv) as (X & net & _ & Erun & _ & Ht & Ha).
    exists net. split_and!; [done|rewrite Ht; set_solver|apply Ha..].
    + left; left. split; [done|]. exists [""]. set_solver.
    + left; right. split; [done|]. exists [""]. set_solver.
Qed.

(** C6, refuted as stated: the empty log and a log with a blank activity
    token are both turned into a net instead of being rejected. *)
Lemma empty_log_and_blank_token_accepted :
  run forward_order [] = ret (mkPetriNet {["start"; "end"]} ∅ ∅) ∧
  run forward_order [[""]]
    = ret (mkPetriNet {["start"; "end"]} {[""]} {[("start", ""); ("", "end")]}).
Proof. split; vm_compute; reflexivity. Qed.

(** ** The enumeration ceiling *)

(** C5 (as the code behaves). [discover] has no ceiling on the candidate
    enumeration: whatever the alphabet size, it returns a net for every log
    without empty traces, and the only error it ever raises is the
    [IndexError] of a zero-length trace. *)
Theorem discover_has_no_enumeration_ceiling (o : SetOrder) log :
  (valid_log log ∧ ∃ net, run o log = ret net ∧ transitions net = alphabet log)
  ∨ (¬ valid_log log ∧ run o log = raise IndexError).
Proof.
  destruct (valid_log_dec log) as [Hv|Hn].
  - left. split; [done|].
    destruct (discover_valid o log Hv) as (X & net & _ & Erun & _ & Ht & _).
    eauto.
  - right. split; [done|]. by apply discover_invalid.
Qed.

(** C5, refuted as stated: even under a ceiling of [0], which the estimate
    [2^n * 2^n] always exceeds, [discover] returns a net. *)
Lemma discover_ignores_any_ceiling :
  ¬ ∀ (ceiling : nat) log,
      2 ^ size (alphabet log) * 2 ^ size (alphabet log) > ceiling →
      ∃ e, run forward_order log = raise e.
Proof.
  intros Hclaim. destruct (Hclaim 0 [["a"]]) as [e He].
  - vm_compute. lia.
  - vm_compute in He. discriminate He.
Qed.

(** ** Two runs on the same log *)

Lemma relation_init_order (o1 o2 : SetOrder) log a b :
  relation (footprint_matrix (init o1 log)) a b
  = relation (footprint_matrix (init o2 log)) a b.
Proof. by rewrite !relation_init. Qed.

Lemma structural_init_order (o1 o2 : SetOrder) log A B :
  structural (footprint_matrix (init o1 log)) A B ↔
  structural (footprint_matrix (init o2 log)) A B.
Proof.
  unfold structural.
  by setoid_rewrite (relation_init_order o1 o2 log).
Qed.

Lemma candidate_pairs_order (o1 o2 : SetOrder) log X1 X2 :
  candidate_pairs o1 (init o1 log) (alphabet log) = ret X1 →
  candidate_pairs o2 (init o2 log) (alphabet log) = ret X2 →
  X1 = X2.
Proof.
  intros E1 E2.
  destruct (candidate_pairs_spec o1 (init o1 log) (alphabet log))
    as (X1' & E1' & H1); [apply init_matrix_total|].
  destruct (candidate_pairs_spec o2 (init o2 log) (alphabet log))
    as (X2' & E2' & H2); [apply init_matrix_total|].
  rewrite E1 in E1'. injection E1' as <-.
  rewrite E2 in E2'. injection E2' as <-.
  apply set_eq. intros [A B].
  rewrite H1, H2, (structural_init_order o1 o2). done.
Qed.

Lemma find_maximal_pairs_order (o1 o2 : SetOrder) (X : gset pair_t) :
  _find_maximal_pairs o1 X = _find_maximal_pairs o2 X.
Proof. apply set_eq. intros p. by rewrite !find_maximal_pairs_spec. Qed.

(** C7 (as the code behaves). Two runs of [discover] on the same log, under
    any two iteration orders, either raise the same error or return nets with
    the same places, the same transitions and the same arcs at [start] and
    [end]; both nets carry the arcs of the same set [Y] of maximal pairs, but
    each run gives a pair the place [p_i] of its position [i] in that run's
    enumeration of [Y], the two enumerations being permutations of each
    other. *)
Theorem runs_agree_up_to_place_numbering (o1 o2 : SetOrder) log :
  match run o1 log, run o2 log with
  | inr n1, inr n2 =>
      places n1 = places n2 ∧
      transitions n1 = transitions n2 ∧
      ∃ X,
        candidate_pairs o1 (init o1 log) (alphabet log) = ret X ∧
        candidate_pairs o2 (init o2 log) (alphabet log) = ret X ∧
        let ys1 := iter_pair o1 (_find_maximal_pairs o1 X) in
        let ys2 := iter_pair o2 (_find_maximal_pairs o2 X) in
        ys1 ≡ₚ ys2 ∧
        (∀ s t, (s, t) ∈ arcs n1 ↔ boundary_arc log s t ∨ internal_arc ys1 s t) ∧
        (∀ s t, (s, t) ∈ arcs n2 ↔ boundary_arc log s t ∨ internal_arc ys2 s t)
  | inl e1, inl e2 => e1 = e2
  | _, _ => False
  end.
Proof.
  destruct (valid_log_dec log) as [Hv|Hn].
  2:{ by rewrite !(discover_invalid _ log Hn). }
  destruct (discover_valid o1 log Hv) as (X1 & n1 & EX1 & -> & Hp1 & Ht1 & Ha1).
  destruct (discover_valid o2 log Hv) as (X2 & n2 & EX2 & -> & Hp2 & Ht2 & Ha2).
  pose proof (candidate_pairs_order o1 o2 log X1 X2 EX1 EX2) as <-.
  change (places n1 = places n2 ∧ transitions n1 = transitions n2 ∧
          ∃ X, candidate_pairs o1 (init o1 log) (alphabet log) = ret X ∧
               candidate_pairs o2 (init o2 log) (alphabet log) = ret X ∧
               iter_pair o1 (_find_maximal_pairs o1 X)
                 ≡ₚ iter_pair o2 (_find_maximal_pairs o2 X) ∧
               (∀ s t, (s, t) ∈ arcs n1 ↔
                       boundary_arc log s t ∨
                       internal_arc (iter_pair o1 (_find_maximal_pairs o1 X)) s t) ∧
               (∀ s t, (s, t) ∈ arcs n2 ↔
                       boundary_arc log s t ∨
                       internal_arc (iter_pair o2 (_find_maximal_pairs o2 X)) s t)).
  split_and!.
  - rewrite Hp1, Hp2. by rewrite (find_maximal_pairs_order o1 o2).
  - by rewrite Ht1, Ht2.
  - exists X1. split_and!; [done..| |done|done].
    rewrite (find_maximal_pairs_order o1 o2 X1).
    by rewrite (iter_pair_perm o1), (iter_pair_perm o2).
Qed.

(** C7, refuted as stated: on the exclusive-choice log the maximal pair
    [({a}, {b, c})] gets place [p_1] under one iteration order and [p_0]
    under the other, and the two returned nets differ. *)
Lemma place_identity_follows_enumeration_order :
  ∃ n1 n2,
    run forward_order xor_log = ret n1 ∧
    run backward_order xor_log = ret n2 ∧
    ("a", place_name 1) ∈ arcs n1 ∧
    (("a", place_name 1) ∉ arcs n2) ∧
    ("a", place_name 0) ∈ arcs n2 ∧
    n1 ≠ n2.
Proof.
  eexists _, _. split; [vm_compute; reflexivity|].
  split; [vm_compute; reflexivity|].
  assert (∀ (x : string * string) (s : gset (string * string)),
            bool_decide (x ∈ s) = false → x ∉ s) as Hnot.
  { intros x s. apply bool_decide_eq_false. }
  split_and!.
  - vm_compute; reflexivity.
  - apply Hnot. vm_compute; reflexivity.
  - vm_compute; reflexivity.
  - intros Heq. apply (f_equal (λ n, bool_decide (("a", place_name 1) ∈ arcs n)))
      in Heq. vm_compute in Heq. discriminate Heq.
Qed.

(** * Further properties of the code *)

(** ** The trace counter *)

Lemma unique_traces_snoc log t :
  _get_unique_traces (log ++ [t])
  = <[t := S (default 0 (_get_unique_traces log !! t))]> (_get_unique_traces log).
Proof. unfold _get_unique_traces. by rewrite foldl_app. Qed.

Lemma occurrences_snoc log t x :
  occurrences (log ++ [x]) t
  = occurrences log t + (if decide (x = t) then 1 else 0).
Proof.
  unfold occurrences. rewrite filter_app, length_app. f_equal.
  rewrite filter_cons, filter_nil. by case_decide.
Qed.

Lemma occurrences_pos log t : t ∈ log ↔ 0 < occurrences log t.
Proof.
  unfold occurrences. split.
  - intros Hin. assert (t ∈ filter (λ x, x = t) log) as Hf.
    { by apply list_elem_of_filter. }
    destruct (filter _ log); [by apply elem_of_nil in Hf|simpl; lia].
  - intros Hpos. destruct (filter (λ x, x = t) log) as [|y l] eqn:E;
      [simpl in Hpos; lia|].
    assert (y ∈ filter (λ x, x = t) log) as Hy by (rewrite E; left).
    apply list_elem_of_filter in Hy as [-> ?]. done.
Qed.

Lemma unique_traces_lookup log t :
  _get_unique_traces log !! t
  = if decide (t ∈ log) then Some (occurrences log t) else None.
Proof.
  induction log as [|x log IH] using rev_ind.
  - rewrite decide_False by apply not_elem_of_nil. apply lookup_empty.
  - rewrite unique_traces_snoc, occurrences_snoc.
    destruct (decide (x = t)) as [->|Hne].
    + rewrite lookup_insert_eq, decide_True by set_solver. f_equal.
      rewrite IH. case_decide as Hin; simpl; [lia|].
      assert (occurrences log t = 0); [|lia].
      destruct (occurrences log t) eqn:E; [done|].
      destruct Hin. apply occurrences_pos. lia.
    + rewrite lookup_insert_ne by done. rewrite IH, Nat.add_0_r.
      repeat case_decide; set_solver.
Qed.

Lemma total_frequency_insert_fresh (c : gmap (list string) nat) t n :
  c !! t = None → total_frequency (<[t := n]> c) = n + total_frequency c.
Proof.
  intros Hnone. unfold total_frequency.
  apply (map_fold_insert_L (λ _ n acc, n + acc)); [intros; lia|done].
Qed.

Lemma total_frequency_insert (c : gmap (list string) nat) t n :
  total_frequency (<[t := n]> c) + default 0 (c !! t) = n + total_frequency c.
Proof.
  destruct (c !! t) as [m|] eqn:E; simpl.
  - rewrite <- (insert_delete_eq c t n).
    rewrite total_frequency_insert_fresh by apply lookup_delete_eq.
    rewrite <- (insert_delete_id c t m E) at 2.
    rewrite total_frequency_insert_fresh by apply lookup_delete_eq. lia.
  - rewrite total_frequency_insert_fresh by done. lia.
Qed.

(** X1. The counter built by [_get_unique_traces] holds, for each trace of
    the log, the number of times the trace occurs in the log, and has no
    entry for any other trace. *)
Theorem unique_traces_counts_occurrences (o : SetOrder) log t :
  unique_traces (init o log) !! t
  = if decide (t ∈ log) then Some (occurrences log t) else None.
Proof. apply unique_traces_lookup. Qed.

(** X2. The frequencies held by the counter add up to the number of traces
    in the log, and every stored frequency is at least one. *)
Theorem unique_traces_total (o : SetOrder) log :
  total_frequency (unique_traces (init o log)) = length log ∧
  ∀ t n, unique_traces (init o log) !! t = Some n → 0 < n.
Proof.
  cbn [unique_traces init]. split.
  - induction log as [|x log IH] using rev_ind; [done|].
    rewrite unique_traces_snoc, length_app. simpl.
    pose proof (total_frequency_insert (_get_unique_traces log) x
                  (S (default 0 (_get_unique_traces log !! x)))). lia.
  - intros t n. rewrite unique_traces_lookup. case_decide as Hin; [|done].
    intros [= <-]. by apply occurrences_pos.
Qed.

(** ** More on the footprint matrix *)

Lemma row_of_lookup ds a (acts : list string) b :
  row_of ds a acts !! b
  = if decide (b ∈ acts) then Some (relation_of ds a b) else None.
Proof. unfold row_of. rewrite row_fold_lookup. by rewrite lookup_empty. Qed.

Lemma footprint_lookup (o : SetOrder) log a :
  footprint_matrix (init o log) !! a
  = if decide (a ∈ alphabet log)
    then Some (row_of (ds_of log) a (iter_act o (alphabet log))) else None.
Proof.
  unfold init, _build_footprint_matrix, ds_of. simpl.
  pose proof (scan_log_activities log) as Hacts.
  destruct (scan_log log) as [ds acts]. simpl in *. subst acts.
  rewrite build_fold_lookup, lookup_empty.
  repeat case_decide; try done; by rewrite iter_act_elem in *.
Qed.

Lemma relation_of_ext ds1 ds2 a b :
  (∀ x y, follows ds1 x y = follows ds2 x y) →
  relation_of ds1 a b = relation_of ds2 a b.
Proof. intros Hf. unfold relation_of. by rewrite !Hf. Qed.

Lemma footprint_matrix_ext (o1 o2 : SetOrder) log1 log2 :
  alphabet log1 = alphabet log2 →
  (∀ x y, follows (ds_of log1) x y = follows (ds_of log2) x y) →
  footprint_matrix (init o1 log1) = footprint_matrix (init o2 log2).
Proof.
  intros Halph Hf. apply map_eq. intros a.
  rewrite !footprint_lookup, <- Halph. case_decide; [|done]. f_equal.
  apply map_eq. intros b. rewrite !row_of_lookup.
  rewrite (relation_of_ext _ _ a b Hf).
  repeat case_decide; try done; rewrite !iter_act_elem in *; by destruct Halph.
Qed.




(** X3. The matrix built by the constructor has a row for exactly the
    alphabet activities and every row has a cell for exactly the alphabet
    activities; reading a cell [footprint_matrix[a][b]] returns the mark
    decided by the cascade when both are alphabet activities and raises
    [KeyError] otherwise. *)
Theorem footprint_keys_are_the_alphabet (o : SetOrder) log :
  let fm := footprint_matrix (init o log) in
  dom fm = alphabet log ∧
  (∀ a row, fm !! a = Some row → dom row = alphabet log) ∧
  (∀ a b, fm_get fm a b =
          if decide (a ∈ alphabet log ∧ b ∈ alphabet log)
          then ret (relation_of (ds_of log) a b) else raise KeyError).
Proof.
  cbv zeta. split_and!.
  - apply set_eq. intros a. rewrite elem_of_dom, footprint_lookup.
    case_decide; [by split; eauto|]. split; [by intros [? ?]|done].
  - intros a row. rewrite footprint_lookup. case_decide; [|done].
    intros [= <-]. apply set_eq. intros b.
    rewrite elem_of_dom, row_of_lookup.
    case_decide as Hb; rewrite iter_act_elem in Hb;
      [by split; eauto|]. split; [by intros [? ?]|done].
  - intros a b. rewrite fm_get_relation, relation_init. by case_decide.
Qed.

(** X4. The footprint matrix does not depend on the order in which Python
    iterates over the activity set: any two iteration orders build the same
    matrix. *)
Theorem footprint_matrix_order_independent (o1 o2 : SetOrder) log :
  footprint_matrix (init o1 log) = footprint_matrix (init o2 log).
Proof. by apply footprint_matrix_ext. Qed.







(** ** Reversing the traces *)

Lemma directly_follows_reverse log a b :
  directly_follows (reverse <$> log) a b ↔ directly_follows log b a.
Proof.
  assert (∀ (tr : list string) x y,
            (∃ i, tr !! i = Some x ∧ tr !! S i = Some y) →
            ∃ j, reverse tr !! j = Some y ∧ reverse tr !! S j = Some x) as Hrev.
  { intros tr x y (i & Hi & HSi).
    pose proof (lookup_lt_Some _ _ _ HSi) as Hlt.
    exists (length tr - S (S i)). split.
    - rewrite reverse_lookup by lia. rewrite <- HSi. f_equal. lia.
    - rewrite reverse_lookup by lia. rewrite <- Hi. f_equal. lia. }
  unfold directly_follows. split.
  - intros (tr' & i & (tr & -> & Htr)%list_elem_of_fmap & Hi & HSi).
    destruct (Hrev (reverse tr) a b) as (j & Hj & HSj); [eauto|].
    rewrite reverse_involutive in Hj, HSj. eauto.
  - intros (tr & i & Htr & Hi & HSi).
    destruct (Hrev tr b a) as (j & Hj & HSj); [eauto|].
    exists (reverse tr), j. split; [|done].
    apply list_elem_of_fmap. eauto.
Qed.

Lemma alphabet_reverse log : alphabet (reverse <$> log) = alphabet log.
Proof.
  apply set_eq. intros x. rewrite !elem_of_alphabet. split.
  - intros (tr' & (tr & -> & Htr)%list_elem_of_fmap & Hx).
    exists tr. by rewrite elem_of_reverse in Hx.
  - intros (tr & Htr & Hx). exists (reverse tr). split.
    + apply list_elem_of_fmap. eauto.
    + by rewrite elem_of_reverse.
Qed.

(** X6. Reversing every trace of the log transposes the footprint matrix:
    the cell [(a, b)] of the reversed log holds what the cell [(b, a)] of the
    original log holds. *)
Theorem reversed_log_transposes_matrix (o : SetOrder) log a b :
  relation (footprint_matrix (init o (reverse <$> log))) a b
  = relation (footprint_matrix (init o log)) b a.
Proof.
  rewrite !relation_init, alphabet_reverse.
  assert (∀ x y, follows (ds_of (reverse <$> log)) x y = follows (ds_of log) y x)
    as Hf.
  { intros x y. apply eq_true_iff_eq.
    rewrite !follows_directly. apply directly_follows_reverse. }
  repeat case_decide; try done; try tauto.
  f_equal. unfold relation_of. rewrite !Hf.
  by destruct (follows (ds_of log) a b), (follows (ds_of log) b a).
Qed.

(** ** [_check_conditions] on an arbitrary matrix *)

Lemma all_cells_true fm mark cells :
  all_cells fm mark cells = ret true ↔
  ∀ c, c ∈ cells → relation fm c.1 c.2 = Some mark.
Proof.
  induction cells as [|[x y] cells IH]; cbn [all_cells].
  - split; [|done]. by intros _ c ?%elem_of_nil.
  - rewrite fm_get_relation. split.
    + destruct (relation fm x y) as [r|] eqn:Hr; [|done]. simpl.
      destruct (decide (r ≠ mark)) as [?|Heq]; [done|].
      apply dec_stable in Heq. subst r. intros Hrest.
      pose proof (proj1 IH Hrest) as Hall.
      intros c [->|?]%elem_of_cons; [done|by apply Hall].
    + intros Hall. pose proof (Hall (x, y) ltac:(left)) as Hxy.
      simpl in Hxy. rewrite Hxy. simpl.
      rewrite decide_False by (by intros []). apply (proj2 IH).
      intros c ?. apply Hall. by right.
Qed.

Lemma all_cells_outcome fm mark cells :
  all_cells fm mark cells = ret true ∨
  all_cells fm mark cells = ret false ∨
  all_cells fm mark cells = raise KeyError.
Proof.
  induction cells as [|[x y] cells IH]; cbn [all_cells]; [by left|].
  rewrite fm_get_relation. destruct (relation fm x y) as [r|]; simpl; [|by auto].
  destruct (decide (r ≠ mark)); by auto.
Qed.

Lemma all_cells_prod_true (o : SetOrder) fm mark (A B : gset string) :
  all_cells fm mark (list_prod (iter_act o A) (iter_act o B)) = ret true ↔
  ∀ x y, x ∈ A → y ∈ B → relation fm x y = Some mark.
Proof.
  rewrite all_cells_true. split.
  - intros Hall x y Hx Hy. apply (Hall (x, y)).
    apply elem_of_list_prod. by rewrite !iter_act_elem.
  - intros Hall [x y] [? ?]%elem_of_list_prod.
    apply Hall; by apply (iter_act_elem o).
Qed.

(** X7. Whatever matrix the object holds, [_check_conditions] returns [True]
    exactly when every cell within [A] and within [B] is [#] and every cell
    from [A] to [B] is [->]; in every other case it returns [False] or
    raises [KeyError] for a cell the matrix lacks, and it raises nothing
    else. *)
Theorem check_conditions_true_iff_structural (o : SetOrder) self A B :
  (_check_conditions o self A B = ret true ↔
   structural (footprint_matrix self) A B) ∧
  (_check_conditions o self A B = ret true ∨
   _check_conditions o self A B = ret false ∨
   _check_conditions o self A B = raise KeyError).
Proof.
  unfold _check_conditions, structural.
  pose proof (all_cells_prod_true o (footprint_matrix self) CHOICE A A) as H1.
  pose proof (all_cells_prod_true o (footprint_matrix self) CHOICE B B) as H2.
  pose proof (all_cells_prod_true o (footprint_matrix self) CAUSALITY A B) as H3.
  destruct (all_cells_outcome (footprint_matrix self) CHOICE
              (list_prod (iter_act o A) (iter_act o A))) as [E1|[E1|E1]];
    rewrite E1 in *; simpl;
    [|split; [split; [done|intros (S1 & _); by apply H1 in S1]|by auto]..].
  destruct (all_cells_outcome (footprint_matrix self) CHOICE
              (list_prod (iter_act o B) (iter_act o B))) as [E2|[E2|E2]];
    rewrite E2 in *; simpl;
    [|split; [split; [done|intros (_ & S2 & _); by apply H2 in S2]|by auto]..].
  destruct (all_cells_outcome (footprint_matrix self) CAUSALITY
              (list_prod (iter_act o A) (iter_act o B))) as [E3|[E3|E3]];
    rewrite E3 in *; simpl;
    [|split; [split; [done|intros (_ & _ & S3); by apply H3 in S3]|by auto]..].
  split; [|by auto]. split; [|done]. intros _.
  split_and!; [by apply H1|by apply H2|by apply H3].
Qed.

(** ** More on maximal pairs *)

Lemma dominated_by_weight (p q : pair_t) :
  dominated_by p q → p ≠ q → (weight p < weight q)%nat.
Proof.
  intros [H1 H2] Hne. unfold weight.
  pose proof (subseteq_size _ _ H1). pose proof (subseteq_size _ _ H2).
  destruct (decide (p.1 = q.1)) as [E1|N1].
  - destruct (decide (p.2 = q.2)) as [E2|N2].
    + destruct Hne. destruct p, q; simpl in *; by subst.
    + assert (p.2 ⊂ q.2) as Hs by set_solver.
      apply subset_size in Hs. lia.
  - assert (p.1 ⊂ q.1) as Hs by set_solver.
    apply subset_size in Hs. lia.
Qed.

Lemma dominated_by_trans (p q r : pair_t) :
  dominated_by p q → dominated_by q r → dominated_by p r.
Proof. unfold dominated_by. set_solver. Qed.

Lemma maximal_above (o : SetOrder) (X : gset pair_t) (n : nat) :
  ∀ p : pair_t, p ∈ X → (∀ q, q ∈ X → (weight q ≤ weight p + n)%nat) →
       ∃ q, q ∈ _find_maximal_pairs o X ∧ dominated_by p q.
Proof.
  induction n as [|n IH]; intros p Hp Hbound.
  - exists p. split; [|done]. apply find_maximal_pairs_spec. split; [done|].
    intros q Hq Hne Hd.
    assert (p ≠ q) as Hpq by congruence.
    pose proof (dominated_by_weight p q Hd Hpq) as Hw.
    specialize (Hbound q Hq). lia.
  - destruct (decide (p ∈ _find_maximal_pairs o X)) as [?|Hnot];
      [by exists p|].
    assert (∃ q, q ∈ X ∧ q ≠ p ∧ dominated_by p q) as (q & Hq & Hne & Hd).
    { apply dec_stable. intros Hno. apply Hnot.
      apply find_maximal_pairs_spec. split; [done|].
      intros q Hq Hne Hd. apply Hno. eauto. }
    assert (weight p < weight q)%nat by (apply dominated_by_weight; congruence).
    destruct (IH q Hq) as (r & Hr & Hqr).
    { intros q' Hq'. specialize (Hbound q' Hq'). lia. }
    exists r. split; [done|]. by eapply dominated_by_trans.
Qed.

Lemma weight_bound (X : gset pair_t) :
  ∃ n : nat, ∀ q, q ∈ X → (weight q ≤ n)%nat.
Proof.
  induction X as [|x X _ [n Hn]] using set_ind_L.
  - exists 0. set_solver.
  - exists (weight x + n). intros q [->%elem_of_singleton|Hq]%elem_of_union;
      [lia|]. specialize (Hn q Hq). lia.
Qed.

Lemma maximal_pairs_cover_all (o : SetOrder) (X : gset pair_t) (p : pair_t) :
  p ∈ X → ∃ q, q ∈ _find_maximal_pairs o X ∧ dominated_by p q.
Proof.
  intros Hp. destruct (weight_bound X) as [n Hn].
  apply (maximal_above o X n); [done|].
  intros q Hq. specialize (Hn q Hq). lia.
Qed.

(** X8. No candidate is lost by [_find_maximal_pairs]: every pair of [X] is
    dominated componentwise by some pair of the returned set [Y]. *)
Theorem every_candidate_is_below_a_maximal_pair (o : SetOrder)
    (X : gset pair_t) (p : pair_t) :
  p ∈ X → ∃ q, q ∈ _find_maximal_pairs o X ∧ dominated_by p q.
Proof. apply maximal_pairs_cover_all. Qed.

Lemma every_candidate_is_below_a_maximal_pair_witness :
  ∃ q, q ∈ _find_maximal_pairs forward_order
             {[ ({["a"]}, {["b"]}); ({["a"]}, {["b"; "c"]}) ]}
       ∧ dominated_by ({["a"]}, {["b"]}) q.
Proof.
  apply (every_candidate_is_below_a_maximal_pair forward_order).
  apply elem_of_union_l, elem_of_singleton. reflexivity.
Defined.

(** X9. [_find_maximal_pairs] is idempotent, and its result does not depend
    on the order in which the set is iterated: applying it again, under any
    iteration order, to its own result changes nothing. *)
Theorem find_maximal_pairs_idempotent (o1 o2 : SetOrder) (X : gset pair_t) :
  _find_maximal_pairs o1 (_find_maximal_pairs o2 X) = _find_maximal_pairs o2 X.
Proof.
  apply set_eq. intros p. rewrite find_maximal_pairs_spec. split; [by intros []|].
  intros Hp. split; [done|]. intros q Hq Hne Hd.
  apply find_maximal_pairs_spec in Hp as [_ Hp].
  apply find_maximal_pairs_spec in Hq as [Hq _]. by apply (Hp q).
Qed.

(** ** More on the candidate set *)

Lemma structural_subseteq fm (A A' B B' : gset string) :
  A ⊆ A' → B ⊆ B' → structural fm A' B' → structural fm A B.
Proof. unfold structural. intros HA HB (H1 & H2 & H3). split_and!; eauto. Qed.

Lemma candidate_pairs_init (o : SetOrder) log X :
  candidate_pairs o (init o log) (alphabet log) = ret X →
  ∀ A B, (A, B) ∈ X ↔
         A ≠ ∅ ∧ B ≠ ∅ ∧ A ⊆ alphabet log ∧ B ⊆ alphabet log ∧
         structural (footprint_matrix (init o log)) A B.
Proof.
  intros EX.
  destruct (candidate_pairs_spec o (init o log) (alphabet log))
    as (X' & EX' & HX); [apply init_matrix_total|].
  rewrite EX in EX'. by injection EX' as <-.
Qed.

(** X10. The candidate set is closed downwards and is recovered from the
    maximal pairs: a pair [(A, B)] is a candidate exactly when [A] and [B]
    are non-empty and [A ⊆ A'], [B ⊆ B'] for some maximal pair [(A', B')]. *)
Theorem candidates_lie_below_maximal_pairs (o : SetOrder) log X
    (A B : gset string) :
  candidate_pairs o (init o log) (alphabet log) = ret X →
  ((A, B) ∈ X ↔
   A ≠ ∅ ∧ B ≠ ∅ ∧
   ∃ A' B', (A', B') ∈ _find_maximal_pairs o X ∧ A ⊆ A' ∧ B ⊆ B').
Proof.
  intros EX. pose proof (candidate_pairs_init o log X EX) as HX. split.
  - intros Hin. pose proof Hin as (HA & HB & _)%HX. split_and!; [done..|].
    destruct (maximal_pairs_cover_all o X (A, B) Hin) as ([A' B'] & HY & H1 & H2).
    by exists A', B'.
  - intros (HA & HB & A' & B' & HY & HAA & HBB).
    apply find_maximal_pairs_spec in HY as [(_ & _ & HA' & HB' & Hs)%HX _].
    apply HX. split_and!; [done|done|set_solver|set_solver|].
    by eapply structural_subseteq.
Qed.

Lemma candidates_lie_below_maximal_pairs_witness :
  ∃ X, candidate_pairs forward_order (init forward_order xor_log)
         (alphabet xor_log) = ret X ∧
       (({["a"]}, {["b"]}) ∈ X ↔
        ({["a"]} : gset string) ≠ ∅ ∧ ({["b"]} : gset string) ≠ ∅ ∧
        ∃ A' B', (A', B') ∈ _find_maximal_pairs forward_order X ∧
                 {["a"]} ⊆ A' ∧ {["b"]} ⊆ B').
Proof.
  destruct (candidate_pairs_spec forward_order (init forward_order xor_log)
              (alphabet xor_log)) as (X & EX & _); [apply init_matrix_total|].
  exists X. split; [exact EX|].
  exact (candidates_lie_below_maximal_pairs forward_order xor_log X _ _ EX).
Defined.

(** X11. An activity that directly follows itself in some trace takes part
    in no candidate pair, on either side: its own cell is [||], not [#]. *)
Theorem self_loop_activity_in_no_candidate (o : SetOrder) log X
    (A B : gset string) a :
  candidate_pairs o (init o log) (alphabet log) = ret X →
  directly_follows log a a →
  (A, B) ∈ X → (a ∉ A) ∧ (a ∉ B).
Proof.
  intros EX Hloop (_ & _ & HA & HB & Hc1 & Hc2 & _)%(candidate_pairs_init o log X EX).
  assert (∀ S : gset string,
            S ⊆ alphabet log →
            (∀ x y, x ∈ S → y ∈ S →
                    relation (footprint_matrix (init o log)) x y = Some CHOICE) →
            a ∉ S) as Hno.
  { intros S HS Hc Ha. specialize (Hc a a Ha Ha).
    rewrite relation_init, decide_True in Hc by set_solver.
    apply follows_directly in Hloop.
    unfold relation_of in Hc. rewrite Hloop in Hc. done. }
  split; by apply Hno.
Qed.

Lemma self_loop_activity_in_no_candidate_witness :
  ("b" ∉ ({["c"]} : gset string)) ∧ ("b" ∉ ({["d"]} : gset string)).
Proof.
  assert (match candidate_pairs forward_order
                  (init forward_order [["a"; "b"; "b"; "c"; "d"]])
                  (alphabet [["a"; "b"; "b"; "c"; "d"]]) with
          | inr X => bool_decide (({["c"]}, {["d"]}) ∈ X)
          | inl _ => false
          end = true) as Hin by (vm_compute; reflexivity).
  destruct (candidate_pairs forward_order
              (init forward_order [["a"; "b"; "b"; "c"; "d"]])
              (alphabet [["a"; "b"; "b"; "c"; "d"]])) as [e|X] eqn:EX;
    [discriminate Hin|].
  apply (self_loop_activity_in_no_candidate forward_order
           [["a"; "b"; "b"; "c"; "d"]] X _ _ "b" EX).
  - exists ["a"; "b"; "b"; "c"; "d"], 1. split_and!; [|reflexivity..].
    apply list_elem_of_here.
  - by apply bool_decide_eq_true in Hin.
Defined.

(** ** More on the assembled net *)

Lemma run_ret_shape (o : SetOrder) log net :
  run o log = ret net →
  ∃ X,
    candidate_pairs o (init o log) (alphabet log) = ret X ∧
    places net =
      list_to_set
        (place_name <$> seq 0 (size (_find_maximal_pairs o X)))
        ∪ {["start"]} ∪ {["end"]} ∧
    transitions net = alphabet log ∧
    (∀ s t, (s, t) ∈ arcs net ↔
            boundary_arc log s t ∨
            internal_arc (iter_pair o (_find_maximal_pairs o X)) s t) ∧
    valid_log log.
Proof.
  intros Erun. destruct (decide (valid_log log)) as [Hv|Hn].
  2:{ rewrite (discover_invalid o log Hn) in Erun. done. }
  destruct (discover_valid o log Hv) as (X & net' & EX & Erun' & Hp & Ht & Ha).
  rewrite Erun in Erun'. injection Erun' as <-. by exists X.
Qed.

(** X12. In every net returned by [discover], each internal place [p_i] has
    at least one incoming arc from a transition and at least one outgoing arc
    to a transition. *)
Theorem internal_places_have_input_and_output (o : SetOrder) log net i :
  run o log = ret net →
  place_name i ∈ places net →
  ∃ a b, a ∈ transitions net ∧ b ∈ transitions net ∧
         (a, place_name i) ∈ arcs net ∧ (place_name i, b) ∈ arcs net.
Proof.
  intros (X & EX & Hp & Ht & Ha & _)%run_ret_shape. rewrite Hp.
  destruct (place_name_not_boundary i) as [Hs He].
  rewrite !elem_of_union, !elem_of_singleton, elem_of_list_to_set,
    list_elem_of_fmap.
  intros [[(j & Hij%place_name_inj & Hj%elem_of_seq)|?]|?]; [subst j|done..].
  destruct (lookup_lt_is_Some_2 (iter_pair o (_find_maximal_pairs o X)) i)
    as [[A B] Hi]; [rewrite iter_pair_length; lia|].
  assert ((A, B) ∈ _find_maximal_pairs o X) as HY.
  { apply (iter_pair_lookup o). eauto. }
  apply find_maximal_pairs_spec in HY as [HX _].
  apply (candidate_pairs_init o log X EX) in HX as (HA & HB & HAT & HBT & _).
  apply set_choose_L in HA as [a Ha']. apply set_choose_L in HB as [b Hb'].
  exists a, b. rewrite Ht. split_and!; [set_solver|set_solver|apply Ha..].
  - right. exists i, A, B. split; [done|]. by left.
  - right. exists i, A, B. split; [done|]. by right.
Qed.

Lemma internal_places_have_input_and_output_witness :
  ∃ net, run forward_order xor_log = ret net ∧
         ∃ a b, a ∈ transitions net ∧ b ∈ transitions net ∧
                (a, place_name 0) ∈ arcs net ∧ (place_name 0, b) ∈ arcs net.
Proof.
  eexists. split; [vm_compute; reflexivity|].
  eapply (internal_places_have_input_and_output forward_order xor_log).
  - vm_compute; reflexivity.
  - vm_compute; reflexivity.
Defined.

(** X13. For a non-empty log, every net returned by [discover] has an arc
    from [start] to a transition and an arc from a transition to [end]. *)
Theorem boundary_places_are_connected (o : SetOrder) log net :
  run o log = ret net →
  log ≠ [] →
  ∃ t t', t ∈ transitions net ∧ t' ∈ transitions net ∧
          ("start", t) ∈ arcs net ∧ (t', "end") ∈ arcs net.
Proof.
  intros (X & EX & Hp & Ht & Ha & Hv)%run_ret_shape Hne.
  destruct log as [|tr log]; [done|].
  apply Forall_cons in Hv as [Htr _].
  destruct (head tr) as [t|] eqn:Hh; [|by apply head_None in Hh].
  destruct (last tr) as [t'|] eqn:Hl; [|by apply last_None in Hl].
  exists t, t'. rewrite Ht. split_and!.
  - apply elem_of_alphabet. exists tr. split; [left|by apply head_Some_elem_of].
  - apply elem_of_alphabet. exists tr. split; [left|by apply last_Some_elem_of].
  - apply Ha. left; left. split; [done|]. exists tr. split; [left|done].
  - apply Ha. left; right. split; [done|]. exists tr. split; [left|done].
Qed.

Lemma boundary_places_are_connected_witness :
  ∃ net, run forward_order xor_log = ret net ∧
         ∃ t t', t ∈ transitions net ∧ t' ∈ transitions net ∧
                 ("start", t) ∈ arcs net ∧ (t', "end") ∈ arcs net.
Proof.
  eexists. split; [vm_compute; reflexivity|].
  eapply (boundary_places_are_connected forward_order xor_log).
  - vm_compute; reflexivity.
  - discriminate.
Defined.

(** ** [generate_abbreviation] *)

Lemma non_upper_prefix_split s :
  s = (non_upper_prefix s ++ drop (length (non_upper_prefix s)) s)%list.
Proof.
  induction s as [|c s IH]; [done|]. simpl.
  destruct (is_upper c); [done|]. simpl. by f_equal.
Qed.

Lemma capitals_non_upper_prefix s : capitals (non_upper_prefix s) = [].
Proof.
  unfold capitals. induction s as [|c s IH]; [done|]. cbn [non_upper_prefix].
  destruct (is_upper c) eqn:E; [done|].
  rewrite filter_cons_False; [exact IH|]. by apply Is_true_false.
Qed.

Lemma capitals_skip_prefix s :
  capitals (drop (length (non_upper_prefix s)) s) = capitals s.
Proof.
  assert (∀ p d : list ascii,
            s = (p ++ d)%list → capitals p = [] → capitals d = capitals s) as H.
  { intros p d -> Hp. unfold capitals in *. by rewrite filter_app, Hp. }
  apply (H (non_upper_prefix s));
    [apply non_upper_prefix_split|apply capitals_non_upper_prefix].
Qed.

Lemma findall_scan_heads (fuel : nat) (s : list ascii) :
  (length s ≤ fuel)%nat →
  collect word_head (findall_scan fuel s) = ret (capitals s).
Proof.
  revert s. induction fuel as [|fuel IH]; intros s Hlen.
  - destruct s; [done|simpl in Hlen; lia].
  - destruct s as [|c s]; [done|]. simpl in Hlen. cbn [findall_scan].
    unfold capitals. destruct (is_upper c) eqn:E.
    + rewrite filter_cons_True by (by apply Is_true_true).
      cbn [collect word_head bind ret]. rewrite IH.
      * cbn [bind ret]. fold (capitals s). by rewrite capitals_skip_prefix.
      * rewrite length_drop. lia.
    + rewrite filter_cons_False by (by apply Is_true_false). apply IH. lia.
Qed.

Lemma findall_scan_nil (fuel : nat) (s : list ascii) :
  (length s ≤ fuel)%nat → findall_scan fuel s = [] ↔ capitals s = [].
Proof.
  intros Hlen. pose proof (findall_scan_heads fuel s Hlen) as Hh. split.
  - intros E. rewrite E in Hh. simpl in Hh. by injection Hh as <-.
  - intros E. rewrite E in Hh.
    destruct (findall_scan fuel s) as [|w ws]; [done|].
    cbn [collect] in Hh. destruct (word_head w); [done|].
    cbn [bind] in Hh. destruct (collect word_head ws); done.
Qed.

Lemma upper_char_capital c : is_upper c → upper_char c = c.
Proof.
  unfold upper_char. intros H%Is_true_true.
  destruct (is_lower c) eqn:E; [|done]. exfalso.
  unfold is_upper, is_lower in *.
  apply andb_true_iff in H as [H1%Nat.leb_le H2%Nat.leb_le].
  apply andb_true_iff in E as [E1%Nat.leb_le E2%Nat.leb_le]. lia.
Qed.

Lemma py_upper_capitals s : py_upper (capitals s) = capitals s.
Proof.
  unfold py_upper, capitals. induction s as [|c s IH]; [done|].
  rewrite filter_cons. case_decide as Hc; [|done].
  rewrite fmap_cons, IH. by rewrite (upper_char_capital c Hc).
Qed.

Lemma upper_char_not_lower c : is_lower (upper_char c) = false.
Proof.
  unfold upper_char. destruct (is_lower c) eqn:E; [|done].
  unfold is_lower in *.
  apply andb_true_iff in E as [E1%Nat.leb_le E2%Nat.leb_le].
  rewrite nat_ascii_embedding by lia.
  apply andb_false_iff. left. apply Nat.leb_gt. lia.
Qed.

Lemma length_string_of_list_ascii l :
  String.length (string_of_list_ascii l) = length l.
Proof. induction l; simpl; by f_equal. Qed.

Lemma length_list_ascii_of_string s :
  length (list_ascii_of_string s) = String.length s.
Proof. induction s; simpl; by f_equal. Qed.

(** X14. For a name with at least one capital letter [A-Z],
    [generate_abbreviation] returns exactly the capital letters of the name,
    in their order; for an ASCII name without a capital letter it returns the
    first two characters, upper-cased.  It raises in neither case. *)
Theorem abbreviation_is_capitals_or_first_two activity :
  let chars := list_ascii_of_string activity in
  (capitals chars ≠ [] →
   generate_abbreviation activity = ret (string_of_list_ascii (capitals chars)))
  ∧
  (capitals chars = [] → Forall (λ c, is_ascii c) chars →
   generate_abbreviation activity
   = ret (string_of_list_ascii (py_upper (take 2 chars)))).
Proof.
  cbv zeta. unfold generate_abbreviation, findall_words.
  pose proof (findall_scan_heads (length (list_ascii_of_string activity))
                (list_ascii_of_string activity) (le_n _)) as Hh.
  pose proof (findall_scan_nil (length (list_ascii_of_string activity))
                (list_ascii_of_string activity) (le_n _)) as Hn.
  destruct (findall_scan _ _) as [|w ws].
  - split; [|done]. intros Hc. destruct Hc. by apply Hn.
  - rewrite Hh. cbn [bind ret]. rewrite py_upper_capitals. split; [done|].
    intros E. by apply Hn in E.
Qed.

Lemma abbreviation_is_capitals_or_first_two_witness :
  generate_abbreviation "GetOrder" = ret "GO" ∧
  generate_abbreviation "receive order" = ret "RE".
Proof.
  split.
  - apply (abbreviation_is_capitals_or_first_two "GetOrder"). discriminate.
  - apply (abbreviation_is_capitals_or_first_two "receive order").
    + reflexivity.
    + apply (bool_decide_unpack _). vm_compute. exact I.
Defined.

(** X15. The abbreviation of an ASCII name is never longer than the name,
    is non-empty when the name is, and holds no lower-case letter [a-z]. *)
Theorem abbreviation_is_short_and_upper_case activity :
  Forall (λ c, is_ascii c) (list_ascii_of_string activity) →
  ∃ abbr, generate_abbreviation activity = ret abbr ∧
          (String.length abbr ≤ String.length activity)%nat ∧
          (activity ≠ "" → abbr ≠ "") ∧
          ∀ c, c ∈ list_ascii_of_string abbr → is_lower c = false.
Proof.
  intros _. unfold generate_abbreviation, findall_words.
  pose proof (findall_scan_heads (length (list_ascii_of_string activity))
                (list_ascii_of_string activity) (le_n _)) as Hh.
  pose proof (findall_scan_nil (length (list_ascii_of_string activity))
                (list_ascii_of_string activity) (le_n _)) as Hn.
  destruct (findall_scan _ _) as [|w ws].
  - eexists. split; [reflexivity|]. split_and!.
    + rewrite length_string_of_list_ascii. unfold py_upper.
      rewrite length_fmap, length_take, length_list_ascii_of_string. lia.
    + destruct activity as [|c s]; [done|]. by intros _.
    + intros c. rewrite list_ascii_of_string_of_list_ascii.
      intros (c' & -> & _)%list_elem_of_fmap. apply upper_char_not_lower.
  - rewrite Hh. cbn [bind ret]. eexists. split; [reflexivity|].
    rewrite py_upper_capitals. split_and!.
    + rewrite length_string_of_list_ascii, <- length_list_ascii_of_string.
      apply length_filter.
    + intros _ E. apply (f_equal list_ascii_of_string) in E.
      rewrite list_ascii_of_string_of_list_ascii in E. simpl in E.
      by apply Hn in E.
    + intros c. rewrite list_ascii_of_string_of_list_ascii.
      intros [Hc _]%list_elem_of_filter.
      rewrite <- (upper_char_capital c Hc). apply upper_char_not_lower.
Qed.

Lemma abbreviation_is_short_and_upper_case_witness :
  ∃ abbr, generate_abbreviation "Process Payment" = ret abbr ∧
          (String.length abbr ≤ String.length "Process Payment")%nat ∧
          ("Process Payment" ≠ "" → abbr ≠ "") ∧
          ∀ c, c ∈ list_ascii_of_string abbr → is_lower c = false.
Proof.
  apply (abbreviation_is_short_and_upper_case "Process Payment").
  apply (bool_decide_unpack _). vm_compute. exact I.
Defined.

(** ** [read_event_log] *)

Lemma py_split_nonempty sep s : py_split sep s ≠ [].
Proof.
  destruct s as [|c s]; [done|]. simpl.
  destruct (decide (c = sep)); [done|]. by destruct (py_split sep s).
Qed.

Lemma py_split_elem sep s w :
  w ∈ py_split sep s → (sep ∉ w) ∧ ∀ c, c ∈ w → c ∈ s.
Proof.
  revert w. induction s as [|c s IH]; intros w; simpl.
  - intros ->%list_elem_of_singleton. split; [apply not_elem_of_nil|done].
  - destruct (decide (c = sep)) as [->|Hne].
    + intros [->|Hw]%elem_of_cons.
      * split; [apply not_elem_of_nil|]. by intros c ?%elem_of_nil.
      * destruct (IH w Hw) as [? Hsub]. split; [done|].
        intros c ?. right. by apply Hsub.
    + destruct (py_split sep s) as [|w0 ws] eqn:E.
      * intros ->%list_elem_of_singleton. split; [set_solver|set_solver].
      * intros [->|Hw]%elem_of_cons.
        -- destruct (IH w0) as [? Hsub]; [left|]. split; [set_solver|].
           intros c' [->|?]%elem_of_cons; [left|right; by apply Hsub].
        -- destruct (IH w) as [? Hsub]; [by right|]. split; [done|].
           intros c' ?. right. by apply Hsub.
Qed.

Lemma py_lstrip_sub s c : c ∈ py_lstrip s → c ∈ s.
Proof.
  induction s as [|x s IH]; [done|]. simpl.
  destruct (py_isspace x); [|done]. intros ?. right. by apply IH.
Qed.

Lemma py_rstrip_sub s c : c ∈ py_rstrip s → c ∈ s.
Proof.
  revert c. induction s as [|x s IH]; intros c; [done|]. simpl.
  destruct (py_rstrip s) as [|y r].
  - destruct (py_isspace x); [by intros ?%elem_of_nil|].
    intros ->%list_elem_of_singleton. left.
  - intros [->|?]%elem_of_cons; [left|right; by apply IH].
Qed.

Lemma py_rstrip_snoc_space s c :
  py_isspace c = true → py_rstrip (s ++ [c]) = py_rstrip s.
Proof.
  intros Hc. induction s as [|x s IH]; simpl; [by rewrite Hc|by rewrite IH].
Qed.

Lemma py_lstrip_snoc s c :
  py_lstrip (s ++ [c]) = [] ∨ py_lstrip (s ++ [c]) = (py_lstrip s ++ [c])%list.
Proof.
  induction s as [|x s IH]; simpl.
  - destruct (py_isspace c); auto.
  - destruct (py_isspace x); auto.
Qed.

Lemma newline_is_space : py_isspace "010"%char = true.
Proof. reflexivity. Qed.

Lemma py_strip_line_no_newline l :
  "010"%char ∉ l → "010"%char ∉ py_strip (l ++ ["010"%char]).
Proof.
  intros Hl. unfold py_strip.
  destruct (py_lstrip_snoc l "010"%char) as [->| ->]; [apply not_elem_of_nil|].
  rewrite py_rstrip_snoc_space by apply newline_is_space.
  intros Hin. apply Hl. by apply py_lstrip_sub, py_rstrip_sub.
Qed.

Lemma py_readlines_line s line :
  line ∈ py_readlines s →
  "010"%char ∉ line ∨ ∃ l, line = (l ++ ["010"%char])%list ∧ "010"%char ∉ l.
Proof.
  revert line. induction s as [|c s IH]; intros line; simpl.
  - by intros ?%elem_of_nil.
  - destruct (decide (c = "010"%char)) as [->|Hne].
    + intros [->|Hin]%elem_of_cons; [|by apply IH].
      right. exists []. split; [done|apply not_elem_of_nil].
    + destruct (py_readlines s) as [|l0 ls] eqn:E.
      * intros ->%list_elem_of_singleton. left. set_solver.
      * intros [->|Hin]%elem_of_cons; [|apply IH; by right].
        destruct (IH l0) as [Hno|(l & -> & Hno)]; [left|..].
        -- left. set_solver.
        -- right. exists (c :: l). split; [done|]. set_solver.
Qed.

Lemma py_strip_sub s c : c ∈ py_strip s → c ∈ s.
Proof. unfold py_strip. intros ?. by apply py_lstrip_sub, py_rstrip_sub. Qed.

Lemma read_event_log_traces file tr :
  tr ∈ read_event_log file →
  ∃ line, line ∈ py_readlines (list_ascii_of_string file) ∧
          tr = string_of_list_ascii <$> py_split ","%char (py_strip line).
Proof.
  unfold read_event_log. intros (line & -> & Hline)%list_elem_of_fmap. eauto.
Qed.

Lemma read_event_log_valid file : valid_log (read_event_log file).
Proof.
  apply Forall_forall. intros tr (line & _ & ->)%read_event_log_traces.
  intros E%fmap_nil_inv. by apply py_split_nonempty in E.
Qed.

(** X16. Whatever the text of the file, the pipeline of [main] (read the
    log, construct, discover) raises nothing and returns a net whose
    transitions are the activities read: [split] never yields an empty trace,
    so the [IndexError] of [discover] cannot occur. *)
Theorem main_pipeline_never_raises (o : SetOrder) file :
  valid_log (read_event_log file) ∧
  ∃ net, main_discover o file = ret net ∧
         transitions net = alphabet (read_event_log file).
Proof.
  split; [apply read_event_log_valid|].
  destruct (discover_valid o (read_event_log file) (read_event_log_valid file))
    as (X & net & _ & Erun & _ & Ht & _).
  exists net. split; [exact Erun|exact Ht].
Qed.

(** X17. No activity read from a file contains a comma or a newline. *)
Theorem read_activities_hold_no_separator file tr a :
  tr ∈ read_event_log file → a ∈ tr →
  (","%char ∉ list_ascii_of_string a) ∧ ("010"%char ∉ list_ascii_of_string a).
Proof.
  intros (line & Hline & ->)%read_event_log_traces
         (w & -> & Hw)%list_elem_of_fmap.
  rewrite list_ascii_of_string_of_list_ascii.
  apply py_split_elem in Hw as [Hsep Hsub]. split; [done|].
  intros Hnl%Hsub.
  apply py_readlines_line in Hline as [Hno|(l & -> & Hno)].
  - by apply Hno, py_strip_sub.
  - by apply (py_strip_line_no_newline l).
Qed.

Lemma read_activities_hold_no_separator_witness :
  (","%char ∉ list_ascii_of_string "b c") ∧
  ("010"%char ∉ list_ascii_of_string "b c").
Proof.
  apply (read_activities_hold_no_separator
           (String "a" (String "," (String "b" (String " " (String "c"
              (String "010" EmptyString))))))
           ["a"; "b c"] "b c").
  - vm_compute. left.
  - right. left.
Defined.




(** ** Writing a log with Task1.py and reading it back *)

Lemma list_ascii_of_string_app s1 s2 :
  list_ascii_of_string (s1 +:+ s2)
  = (list_ascii_of_string s1 ++ list_ascii_of_string s2)%list.
Proof. induction s1 as [|c s1 IH]; simpl; [done|by rewrite IH]. Qed.

Lemma save_to_file_chars traces :
  list_ascii_of_string (save_to_file traces)
  = concat ((λ t, list_ascii_of_string t ++ ["010"%char])%list <$> traces).
Proof.
  unfold save_to_file.
  assert (∀ file,
            list_ascii_of_string
              (foldl (λ file trace, file +:+ trace +:+ String "010"%char "")
                     file traces)
            = (list_ascii_of_string file ++
               concat ((λ t, list_ascii_of_string t ++ ["010"%char])%list
                         <$> traces))%list) as H.
  { induction traces as [|t traces IH]; intros file; simpl.
    - by rewrite app_nil_r.
    - rewrite IH, !list_ascii_of_string_app. simpl. by rewrite <- !app_assoc. }
  by rewrite H.
Qed.

Lemma py_readlines_app_line l rest :
  "010"%char ∉ l →
  py_readlines (l ++ "010"%char :: rest)
  = (l ++ ["010"%char])%list :: py_readlines rest.
Proof.
  intros Hl. induction l as [|c l IH]; cbn [app py_readlines].
  - by rewrite decide_True.
  - rewrite decide_False by set_solver. rewrite IH by set_solver. done.
Qed.

Lemma py_readlines_saved (ls : list (list ascii)) :
  Forall (λ l, "010"%char ∉ l) ls →
  py_readlines (concat ((λ l, l ++ ["010"%char])%list <$> ls))
  = (λ l, l ++ ["010"%char])%list <$> ls.
Proof.
  induction 1 as [|l ls Hl _ IH]; [done|].
  rewrite fmap_cons, concat_cons, <- app_assoc. simpl.
  by rewrite py_readlines_app_line, IH.
Qed.

Lemma py_lstrip_id s :
  (∀ c, head s = Some c → py_isspace c = false) → py_lstrip s = s.
Proof. destruct s as [|c s]; [done|]. intros H. simpl. by rewrite (H c). Qed.

Lemma py_rstrip_id s :
  (∀ c, last s = Some c → py_isspace c = false) → py_rstrip s = s.
Proof.
  induction s as [|c s IH]; [done|]. intros H. simpl.
  destruct s as [|c' s].
  - simpl. by rewrite (H c).
  - rewrite IH by (intros x Hx; apply H; by rewrite last_cons_cons).
    done.
Qed.

Lemma py_strip_saved_line l :
  (∀ c, head l = Some c → py_isspace c = false) →
  (∀ c, last l = Some c → py_isspace c = false) →
  py_strip (l ++ ["010"%char]) = l.
Proof.
  intros Hh Hl. unfold py_strip. destruct l as [|c l]; [done|].
  rewrite py_lstrip_id by (intros x [= <-]; by apply Hh).
  rewrite py_rstrip_snoc_space by apply newline_is_space.
  by apply py_rstrip_id.
Qed.

Lemma py_split_no_sep sep w : sep ∉ w → py_split sep w = [w].
Proof.
  induction w as [|c w IH]; [done|]. intros Hw. cbn [py_split].
  rewrite decide_False by set_solver. by rewrite IH by set_solver.
Qed.

Lemma py_split_app_sep sep w rest :
  sep ∉ w → py_split sep (w ++ sep :: rest) = w :: py_split sep rest.
Proof.
  induction w as [|c w IH]; intros Hw; cbn [app py_split].
  - by rewrite decide_True.
  - rewrite decide_False by set_solver. by rewrite IH by set_solver.
Qed.

Lemma py_split_join sep (ws : list (list ascii)) :
  ws ≠ [] → Forall (λ w, sep ∉ w) ws → py_split sep (py_join sep ws) = ws.
Proof.
  intros Hne Hall. induction Hall as [|w ws Hw Hws IH]; [done|].
  destruct ws as [|w' ws].
  - simpl. by apply py_split_no_sep.
  - change (py_join sep (w :: w' :: ws))
      with (w ++ sep :: py_join sep (w' :: ws))%list.
    rewrite py_split_app_sep by done. by rewrite IH.
Qed.

Lemma py_join_head sep (ws : list (list ascii)) :
  py_isspace sep = false →
  Forall (λ w, ∀ c, head w = Some c → py_isspace c = false) ws →
  ∀ c, head (py_join sep ws) = Some c → py_isspace c = false.
Proof.
  intros Hsep Hall. destruct Hall as [|w ws Hw Hws]; [done|].
  destruct ws as [|w' ws]; [done|].
  change (py_join sep (w :: w' :: ws))
    with (w ++ sep :: py_join sep (w' :: ws))%list.
  destruct w as [|x w]; cbn [app head]; intros c [= <-]; [done|by apply Hw].
Qed.

Lemma py_join_last sep (ws : list (list ascii)) :
  py_isspace sep = false →
  Forall (λ w, ∀ c, last w = Some c → py_isspace c = false) ws →
  ∀ c, last (py_join sep ws) = Some c → py_isspace c = false.
Proof.
  intros Hsep Hall. induction Hall as [|w ws Hw Hws IH]; [done|].
  destruct ws as [|w' ws]; [done|].
  change (py_join sep (w :: w' :: ws))
    with (w ++ sep :: py_join sep (w' :: ws))%list. intros c.
  rewrite last_app. destruct (last (sep :: py_join sep (w' :: ws))) as [y|] eqn:E.
  - intros [= <-]. rewrite last_cons in E.
    destruct (last (py_join sep (w' :: ws))) as [z|] eqn:E'.
    + injection E as <-. by apply IH.
    + by injection E as <-.
  - by rewrite last_cons in E; destruct (last (py_join sep (w' :: ws))).
Qed.

Lemma join_trace_chars trace :
  list_ascii_of_string (join_trace trace)
  = py_join ","%char (list_ascii_of_string <$> trace).
Proof. unfold join_trace. apply list_ascii_of_string_of_list_ascii. Qed.

Lemma strings_of_chars (trace : list string) :
  string_of_list_ascii <$> (list_ascii_of_string <$> trace) = trace.
Proof.
  induction trace as [|a trace IH]; [done|].
  rewrite !fmap_cons, IH. by rewrite string_of_list_ascii_of_string.
Qed.

Lemma read_saved_trace trace :
  trace ≠ [] → Forall plain_activity trace →
  string_of_list_ascii
    <$> py_split ","%char
          (py_strip (list_ascii_of_string (join_trace trace) ++ ["010"%char]))
  = trace.
Proof.
  intros Hne Hplain. rewrite join_trace_chars.
  rewrite py_strip_saved_line.
  - rewrite py_split_join; [apply strings_of_chars| |].
    + by destruct trace.
    + apply Forall_fmap. eapply Forall_impl; [exact Hplain|].
      by intros a (? & _).
  - apply py_join_head; [done|]. apply Forall_fmap.
    eapply Forall_impl; [exact Hplain|]. intros a (_ & _ & Hh & _) c Hc.
    simpl in *. rewrite Hc in Hh. simpl in Hh. by destruct (py_isspace c).
  - apply py_join_last; [done|]. apply Forall_fmap.
    eapply Forall_impl; [exact Hplain|]. intros a (_ & _ & _ & Hl & _) c Hc.
    simpl in *. rewrite Hc in Hl. simpl in Hl. by destruct (py_isspace c).
Qed.

Lemma join_trace_no_newline trace :
  Forall plain_activity trace →
  "010"%char ∉ list_ascii_of_string (join_trace trace).
Proof.
  intros Hplain. rewrite join_trace_chars.
  induction Hplain as [|a trace (_ & Ha & _) _ IH]; [apply not_elem_of_nil|].
  rewrite fmap_cons. destruct trace as [|a' trace]; [done|].
  rewrite fmap_cons in *.
  change (py_join ","%char
            (list_ascii_of_string a :: list_ascii_of_string a'
               :: (list_ascii_of_string <$> trace)))
    with (list_ascii_of_string a ++ ","%char
            :: py_join ","%char (list_ascii_of_string a'
                                   :: (list_ascii_of_string <$> trace)))%list.
  rewrite elem_of_app, elem_of_cons.
  intros [?|[?|?]]; [done|done|by apply IH].
Qed.

(** X19. A log written by Task1.py ([",".join(trace)] per trace, then
    [save_to_file]) is read back unchanged by [read_event_log], provided no
    trace is empty and no activity holds a comma, a newline, or whitespace at
    either end. *)
Theorem saved_log_reads_back (log : list (list string)) :
  Forall (λ trace, trace ≠ [] ∧ Forall plain_activity trace) log →
  read_event_log (save_to_file (join_trace <$> log)) = log.
Proof.
  intros Hlog. unfold read_event_log. rewrite save_to_file_chars.
  assert (∀ ts : list string,
            (λ t, list_ascii_of_string t ++ ["010"%char])%list <$> ts
            = (λ l, l ++ ["010"%char])%list <$> (list_ascii_of_string <$> ts))
    as Hc by (intros ts; by rewrite <- list_fmap_compose).
  rewrite Hc, py_readlines_saved.
  2:{ apply Forall_fmap, Forall_fmap. eapply Forall_impl; [exact Hlog|].
      intros trace [_ Hplain]. by apply join_trace_no_newline. }
  clear Hc. induction Hlog as [|trace log [Hne Hplain] _ IH]; [done|].
  rewrite !fmap_cons, IH. f_equal. by apply read_saved_trace.
Qed.

Lemma saved_log_reads_back_witness :
  read_event_log (save_to_file (join_trace <$> xor_log)) = xor_log.
Proof.
  apply saved_log_reads_back.
  apply (bool_decide_unpack _). vm_compute. exact I.
Defined.
